(** * Hamiltonian path by bitmask dynamic programming (src/main.py)

    A shallow embedding of [find_hamiltonian_path] and [run], and the
    properties of the specification proved (or refuted) on it.

    Python integers are unbounded, so they are [Z]; the bit operations of the
    source are [Z.land], [Z.lor], [Z.lxor] and [Z.shiftl].  Lists are Rocq
    lists read and written through [getitem] and [setitem], which raise
    [IndexError] out of range like Python (negative indices count from the
    end).  The function works on a store holding the caller's matrix and the
    two tables it allocates; every statement is a computation in a state and
    exception monad over that store. *)

From Stdlib Require Import ZArith Lia List Bool Permutation.
From stdpp Require Import base list gmap strings.

Local Open Scope Z_scope.

(** ** Python values and outcomes *)

Inductive exn : Type := IndexError | KeyError.

(** What a call can do: return, raise, or (for the model of the [while]
    loop only) use up the iteration budget it was given. *)
Inductive outcome (A : Type) : Type :=
  | Ok (a : A)
  | Raise (e : exn)
  | OutOfFuel.

Arguments Ok {A} a.
Arguments Raise {A} e.
Arguments OutOfFuel {A}.

Definition matrix : Type := list (list Z).

(** Truth value of a matrix entry: [if x] for an integer [x]. *)
Definition truthy (x : Z) : bool := negb (x =? 0).

Definition py_len {A} (l : list A) : Z := Z.of_nat (length l).

(** The position a Python index denotes in a list, if any. *)
Definition py_index {A} (l : list A) (i : Z) : option nat :=
  if (0 <=? i) && (i <? py_len l) then Some (Z.to_nat i)
  else if (i <? 0) && (- py_len l <=? i) then Some (Z.to_nat (py_len l + i))
  else None.

(** [l[i]] *)
Definition getitem {A} (l : list A) (i : Z) : outcome A :=
  match py_index l i with
  | Some k => match l !! k with Some x => Ok x | None => Raise IndexError end
  | None => Raise IndexError
  end.

(** [l[i] = x] *)
Definition setitem {A} (l : list A) (i : Z) (x : A) : outcome (list A) :=
  match py_index l i with
  | Some k => Ok (<[k:=x]> l)
  | None => Raise IndexError
  end.

(** [t[i][j]] *)
Definition getitem2 {A} (t : list (list A)) (i j : Z) : outcome A :=
  match getitem t i with
  | Ok row => getitem row j
  | Raise e => Raise e
  | OutOfFuel => OutOfFuel
  end.

(** [t[i][j] = x]: the row object [t[i]] is fetched and updated in place.
    The rows of the tables are distinct objects (built by a comprehension),
    so the update is the table with that one row replaced. *)
Definition setitem2 {A} (t : list (list A)) (i j : Z) (x : A)
  : outcome (list (list A)) :=
  match getitem t i with
  | Ok row =>
      match setitem row j x with
      | Ok row' => setitem t i row'
      | Raise e => Raise e
      | OutOfFuel => OutOfFuel
      end
  | Raise e => Raise e
  | OutOfFuel => OutOfFuel
  end.

(** [range(k)] *)
Definition range (k : Z) : list Z := map Z.of_nat (seq 0 (Z.to_nat k)).

(** ** The store and the monad *)

(** The objects [find_hamiltonian_path] can reach: the caller's matrix and
    the two tables local to the call. *)
Record state : Type := mkState {
  st_adj : matrix;
  st_dp : list (list bool);
  st_parent : list (list Z)
}.

Definition M (A : Type) : Type := state -> state * outcome A.

Definition ret {A} (a : A) : M A := fun s => (s, Ok a).

Definition bind {A B} (c : M A) (k : A -> M B) : M B :=
  fun s =>
    match c s with
    | (s', Ok a) => k a s'
    | (s', Raise e) => (s', Raise e)
    | (s', OutOfFuel) => (s', OutOfFuel)
    end.

Notation "x <- c ;; k" := (bind c (fun x => k))
  (at level 100, c at next level, right associativity).
Notation "c ;; k" := (bind c (fun _ => k))
  (at level 100, right associativity).

Fixpoint for_each {X} (l : list X) (body : X -> M unit) : M unit :=
  match l with
  | [] => ret tt
  | x :: l' => body x ;; for_each l' body
  end.

(** Reads and writes of the three objects. The source has no statement
    that assigns into [adj], so there is no [adj_set]. *)
Definition adj_len : M Z := fun s => (s, Ok (py_len (st_adj s))).

Definition adj_get (u v : Z) : M Z := fun s => (s, getitem2 (st_adj s) u v).

Definition dp_get (mask v : Z) : M bool :=
  fun s => (s, getitem2 (st_dp s) mask v).

Definition parent_get (mask v : Z) : M Z :=
  fun s => (s, getitem2 (st_parent s) mask v).

Definition dp_set (mask v : Z) (b : bool) : M unit :=
  fun s =>
    match setitem2 (st_dp s) mask v b with
    | Ok t => (mkState (st_adj s) t (st_parent s), Ok tt)
    | Raise e => (s, Raise e)
    | OutOfFuel => (s, OutOfFuel)
    end.

Definition parent_set (mask v : Z) (p : Z) : M unit :=
  fun s =>
    match setitem2 (st_parent s) mask v p with
    | Ok t => (mkState (st_adj s) (st_dp s) t, Ok tt)
    | Raise e => (s, Raise e)
    | OutOfFuel => (s, OutOfFuel)
    end.

(** [dp = [[False] * n for _ in range(1 << n)]] and the same for [parent]
    with [-1]: fresh tables replace whatever the store held. *)
Definition alloc_tables (n : Z) : M unit :=
  fun s =>
    (mkState (st_adj s)
       (map (fun _ => replicate (Z.to_nat n) false) (range (Z.shiftl 1 n)))
       (map (fun _ => replicate (Z.to_nat n) (-1)) (range (Z.shiftl 1 n))),
     Ok tt).

(** ** find_hamiltonian_path *)

(** Lines 28-30: the body of the base-case loop. *)
Definition base_case (v : Z) : M unit :=
  dp_set (Z.shiftl 1 v) v true ;;
  parent_set (Z.shiftl 1 v) v (-1).

(** Lines 38-43: the body of the innermost loop. The [and] of line 38 reads
    [adj[u][v]] only when [v] is not in [mask]. *)
Definition try_extend (mask u v : Z) : M unit :=
  c <- (if Z.land mask (Z.shiftl 1 v) =? 0
        then (x <- adj_get u v ;; ret (truthy x))
        else ret false) ;;
  if c : bool then
    let next_mask := Z.lor mask (Z.shiftl 1 v) in
    b <- dp_get next_mask v ;;
    if negb b then
      dp_set next_mask v true ;;
      parent_set next_mask v u
    else ret tt
  else ret tt.

(** Lines 35-43: the body of the loop over [u]. *)
Definition extend_from (n mask u : Z) : M unit :=
  b <- dp_get mask u ;;
  if b : bool then for_each (range n) (try_extend mask u) else ret tt.

(** Lines 34-43: the body of the loop over [mask]. *)
Definition process_mask (n mask : Z) : M unit :=
  for_each (range n) (extend_from n mask).

(** Lines 49-60, up to the [reverse]: the [while] loop, which runs at most
    [fuel] iterations in the model. [path.append] adds at the end. *)
Fixpoint reconstruct (fuel : nat) (cur_mask cur_v : Z) (path : list Z)
  : M (list Z) :=
  if cur_v =? -1 then ret path
  else
    match fuel with
    | O => fun s => (s, OutOfFuel)
    | S fuel' =>
        let path := path ++ [cur_v] in
        prev <- parent_get cur_mask cur_v ;;
        if prev =? -1 then ret path
        else reconstruct fuel' (Z.lxor cur_mask (Z.shiftl 1 cur_v)) prev path
    end.

(** Lines 46-62: the scan for an end vertex, returning from inside the
    loop at the first one found. *)
Fixpoint find_end (fuel : nat) (full_mask : Z) (vs : list Z)
  : M (bool * list Z) :=
  match vs with
  | [] => ret (false, [])
  | v :: vs' =>
      b <- dp_get full_mask v ;;
      if b : bool then
        path <- reconstruct fuel full_mask v [] ;;
        ret (true, rev path)
      else find_end fuel full_mask vs'
  end.

(** The body of the function, run in a store that holds [adj]. *)
Definition find_hamiltonian_path_body (fuel : nat) : M (bool * list Z) :=
  n <- adj_len ;;
  let full_mask := Z.shiftl 1 n - 1 in
  alloc_tables n ;;
  for_each (range n) base_case ;;
  for_each (range (Z.shiftl 1 n)) (process_mask n) ;;
  find_end fuel full_mask (range n).

(** The store on entry: the argument, and no tables yet. *)
Definition enter (adj : matrix) : state := mkState adj [] [].

Definition find_hamiltonian_path (fuel : nat) (adj : matrix)
  : outcome (bool * list Z) :=
  snd (find_hamiltonian_path_body fuel (enter adj)).

(** ** run *)

(** The response dictionary, which has exactly these two keys. *)
Record response : Type := mkResponse {
  optimal_solution : list Z;
  existence : Z
}.

(** [int(exists)] *)
Definition int_of_bool (b : bool) : Z := if b then 1 else 0.

(** [input_data] is a dictionary from strings to matrices; the two optional
    arguments default to [None]. *)
Definition run {P E : Type} (fuel : nat) (input_data : gmap string matrix)
    (solver_params : option P) (extra_arguments : option E)
  : outcome response :=
  match input_data !! "adjacency_matrix"%string with
  | None => Raise KeyError
  | Some adjacency_matrix =>
      match find_hamiltonian_path fuel adjacency_matrix with
      | Ok (exists_, best_solution) =>
          Ok (mkResponse best_solution (int_of_bool exists_))
      | Raise e => Raise e
      | OutOfFuel => OutOfFuel
      end
  end.

(** * The vocabulary of the properties *)

(** A table of [rows] rows, each of [cols] cells. *)
Definition table_ok {A} (rows cols : Z) (t : list (list A)) : Prop :=
  py_len t = rows /\ Forall (fun r => py_len r = cols) t.

(** The cell read, with a default where the read would raise. *)
Definition cellv {A} (d : A) (t : list (list A)) (m v : Z) : A :=
  match getitem2 t m v with Ok x => x | _ => d end.

(** Well-formed input: every row is as long as the matrix. *)
Definition square (adj : matrix) : Prop :=
  Forall (fun row => py_len row = py_len adj) adj.

(** [adj[u][v]] is there and truthy. *)
Definition has_edge (adj : matrix) (u v : Z) : bool :=
  match getitem2 adj u v with Ok x => truthy x | _ => false end.

(** The cells of the two tables. *)
Definition dpv (s : state) (m v : Z) : bool := cellv false (st_dp s) m v.
Definition parv (s : state) (m v : Z) : Z := cellv (-1) (st_parent s) m v.

(** The store of a call on [adj], once the tables are allocated. *)
Definition shape (adj : matrix) (s : state) : Prop :=
  st_adj s = adj
  /\ table_ok (2 ^ py_len adj) (py_len adj) (st_dp s)
  /\ table_ok (2 ^ py_len adj) (py_len adj) (st_parent s).

(** From [s] to [s'], a cell of [dp] that was true is still true and its
    parent is the same, and parents changed only in cells that became true. *)
Definition write_once (n : Z) (s s' : state) : Prop :=
  forall m v, 0 <= m < 2 ^ n -> 0 <= v < n ->
    (dpv s m v = true -> dpv s' m v = true /\ parv s' m v = parv s m v)
    /\ (dpv s' m v = false -> parv s' m v = parv s m v).

(** From [s] to [s'], the rows of [dp] up to [k] are as they were. *)
Definition frozen (n k : Z) (s s' : state) : Prop :=
  forall m v, 0 <= m < 2 ^ n -> 0 <= v < n -> m <= k ->
    dpv s' m v = dpv s m v.

(** What a step of the loop over [mask] at mask [k] does to the tables. *)
Definition grows (n k : Z) (s s' : state) : Prop :=
  write_once n s s' /\ frozen n k s s'.

(** Cell [(m, v)] was set to true with parent [p], and nothing else. *)
Definition marked (n m v p : Z) (s s' : state) : Prop :=
  dpv s' m v = true /\ parv s' m v = p
  /\ forall m' v', 0 <= m' < 2 ^ n -> 0 <= v' < n -> (m' <> m \/ v' <> v) ->
       dpv s' m' v' = dpv s m' v' /\ parv s' m' v' = parv s m' v'.

(** Every true cell has its vertex in its mask, and is either a one-vertex
    path with no parent or extends a true cell along an edge. *)
Definition sound (adj : matrix) (s : state) : Prop :=
  forall m v, 0 <= m < 2 ^ py_len adj -> 0 <= v < py_len adj ->
    dpv s m v = true ->
    Z.testbit m v = true
    /\ ((parv s m v = -1 /\ m = 2 ^ v)
        \/ (0 <= parv s m v < py_len adj
            /\ has_edge adj (parv s m v) v = true
            /\ dpv s (Z.lxor m (2 ^ v)) (parv s m v) = true)).

(** Row [m] is closed: every true cell of it has been extended along every
    edge leaving its vertex for a vertex outside [m]. *)
Definition closed (adj : matrix) (m : Z) (s : state) : Prop :=
  forall u v, 0 <= u < py_len adj -> 0 <= v < py_len adj ->
    dpv s m u = true -> Z.testbit m v = false -> has_edge adj u v = true ->
    dpv s (Z.lor m (2 ^ v)) v = true.

(** From [s] to [s'], a cell of [dp] that was true is still true. *)
Definition dp_mono (n : Z) (s s' : state) : Prop :=
  forall m v, 0 <= m < 2 ^ n -> 0 <= v < n ->
    dpv s m v = true -> dpv s' m v = true.

(** Every consecutive pair of [p] is an edge. *)
Fixpoint consecutive_ok (adj : matrix) (p : list Z) : bool :=
  match p with
  | a :: r => match r with
              | b :: _ => has_edge adj a b && consecutive_ok adj r
              | [] => true
              end
  | [] => true
  end.

(** [hpath adj m v l]: [l], read backwards, is a path of the graph that
    visits exactly the vertices of [m] and ends at [v] (the head of [l]). *)
Inductive hpath (adj : matrix) : Z -> Z -> list Z -> Prop :=
  | hpath_one v :
      0 <= v < py_len adj -> hpath adj (2 ^ v) v [v]
  | hpath_ext m u v l :
      hpath adj m u l -> 0 <= v < py_len adj ->
      Z.testbit m v = false -> has_edge adj u v = true ->
      hpath adj (Z.lor m (2 ^ v)) v (v :: l).

(** The tables when the loop over [mask] is over. *)
Definition filled (adj : matrix) (s : state) : Prop :=
  shape adj s /\ sound adj s
  /\ (forall v, 0 <= v < py_len adj -> dpv s (2 ^ v) v = true)
  /\ (forall m, 0 <= m < 2 ^ py_len adj -> closed adj m s).

(** [c] ends, however it ends, in a store with the matrix it started
    with. *)
Definition keeps_adj {A} (c : M A) : Prop :=
  forall s, st_adj (fst (c s)) = st_adj s.

(** [c2] does what [c1] does whenever [c1] stays within its budget. *)
Definition settles {A} (c1 c2 : M A) : Prop :=
  forall s s' o, c1 s = (s', o) -> o <> OutOfFuel -> c2 s = (s', o).

(** [s'] is the store reached from [s] by one innermost step, by the body
    of the loop over [u], by the body of the loop over [mask], or by that
    loop over some masks: the stretches a run of lines 33-43 is made of. *)
Inductive run_segment (adj : matrix) (s s' : state) : Prop :=
  | seg_step mask u v :
      0 <= mask < 2 ^ py_len adj -> 0 <= u < py_len adj ->
      0 <= v < py_len adj ->
      try_extend mask u v s = (s', Ok tt) -> run_segment adj s s'
  | seg_vertex mask u :
      0 <= mask < 2 ^ py_len adj -> 0 <= u < py_len adj ->
      extend_from (py_len adj) mask u s = (s', Ok tt) -> run_segment adj s s'
  | seg_mask mask :
      0 <= mask < 2 ^ py_len adj ->
      process_mask (py_len adj) mask s = (s', Ok tt) -> run_segment adj s s'
  | seg_masks masks :
      Forall (fun mask => 0 <= mask < 2 ^ py_len adj) masks ->
      for_each masks (process_mask (py_len adj)) s = (s', Ok tt) ->
      run_segment adj s s'.

(** [p] lists every vertex once and each consecutive pair is an edge. *)
Definition hamiltonian (adj : matrix) (p : list Z) : Prop :=
  Permutation p (range (py_len adj))
  /\ forall (i : nat) a b, p !! i = Some a -> p !! S i = Some b ->
       has_edge adj a b = true.

(** The check the specification compares the verdict with: try every
    ordering of the vertices. *)
Definition exhaustive_search (adj : matrix) : bool :=
  existsb (consecutive_ok adj) (permutations (range (py_len adj))).

(** The linear chain and the triangle of the specification's scenarios,
    and a single edge. *)
Definition chain4 : matrix := [[0;1;0;0];[0;0;1;0];[0;0;0;1];[0;0;0;0]].
Definition triangle3 : matrix := [[0;1;0];[0;0;1];[1;0;0]].
Definition edge2 : matrix := [[0;1];[0;0]].

(** The store of a call on the single edge when the base case is done. *)
Definition edge2_based : state :=
  fst ((alloc_tables 2 ;; for_each (range 2) base_case) (enter edge2)).

(** ** More vocabulary: what a computation can end with *)

(** [c] raises nothing but [IndexError], and runs out of budget only if
    [allow_fuel] says it may. *)
Definition raises_only {A} (allow_fuel : bool) (c : M A) : Prop :=
  forall s t (o : outcome A), c s = (t, o) ->
    match o with
    | Ok _ => True
    | Raise e => e = IndexError
    | OutOfFuel => allow_fuel = true
    end.

(** ** More vocabulary: what the function reads of the matrix *)

(** What line 38 learns from [adj[u][v]]: its truth value, or the
    exception the read raises. *)
Definition read (adj : matrix) (u v : Z) : outcome bool :=
  match getitem2 adj u v with
  | Ok x => Ok (truthy x)
  | Raise e => Raise e
  | OutOfFuel => OutOfFuel
  end.

(** Two matrices with as many rows that read the same off the diagonal. *)
Definition same_readings (adj adj' : matrix) : Prop :=
  py_len adj' = py_len adj
  /\ forall u v, 0 <= u < py_len adj -> 0 <= v < py_len adj -> u <> v ->
       read adj' u v = read adj u v.

(** The store [s] with the matrix [adj'] in place of its own. *)
Definition with_adj (adj' : matrix) (s : state) : state :=
  mkState adj' (st_dp s) (st_parent s).

(** Run on [adj'] in the tables of [s], [c] ends as it does in [s], with
    the same tables. *)
Definition transfers {A} (adj' : matrix) (c : M A) (s : state) : Prop :=
  c (with_adj adj' s) = (with_adj adj' (fst (c s)), snd (c s)).

(** Every true cell has its vertex in its mask. *)
Definition bits_ok (n : Z) (s : state) : Prop :=
  forall m v, 0 <= m < 2 ^ n -> 0 <= v < n ->
    dpv s m v = true -> Z.testbit m v = true.

(** The tables of a call on [adj], whatever its rows are, from the end of
    the base case on. *)
Definition based (adj : matrix) (s : state) : Prop :=
  shape adj s /\ bits_ok (py_len adj) s
  /\ forall v, 0 <= v < py_len adj -> dpv s (2 ^ v) v = true.

(** Each entry replaced by [1] if it is truthy and by [0] if not. *)
Definition as_zero_one (adj : matrix) : matrix :=
  map (map (fun x => if truthy x then 1 else 0)) adj.

(** The square matrix of the entries of [adj], with [0] where [adj] has
    none. *)
Definition squared (adj : matrix) : matrix :=
  map (fun u => map (fun v => cellv 0 adj u v) (range (py_len adj)))
      (range (py_len adj)).

(** Some entry off the diagonal is missing: its row is too short. *)
Definition off_diagonal_missing (adj : matrix) : bool :=
  existsb (fun u =>
    existsb (fun v =>
      negb (u =? v)
      && match getitem2 adj u v with Ok _ => false | _ => true end)
      (range (py_len adj)))
    (range (py_len adj)).

(** A ragged matrix that reads as the two-vertex cycle off the diagonal,
    and the cycle itself. *)
Definition ragged2 : matrix := [[7;2;5];[-1]].
Definition cycle2 : matrix := [[0;1];[1;0]].

(** [p] is a path of the graph that visits exactly the vertices of the
    mask [m], each once, and ends at [v]. *)
Definition path_over (adj : matrix) (m v : Z) (p : list Z) : Prop :=
  last p = Some v
  /\ NoDup p
  /\ (forall i, In i p <-> 0 <= i < py_len adj /\ Z.testbit m i = true)
  /\ consecutive_ok adj p = true.

(** ** More vocabulary: which parent is recorded *)

(** No vertex below the parent of a true cell could have been its
    parent: none has its own cell, for the mask without [v], true and an
    edge to [v]. *)
Definition least_parent (adj : matrix) (s : state) : Prop :=
  forall m v, 0 <= m < 2 ^ py_len adj -> 0 <= v < py_len adj ->
    dpv s m v = true ->
    forall u, 0 <= u < parv s m v ->
      dpv s (Z.lxor m (2 ^ v)) u = true -> has_edge adj u v = true -> False.

(** Every true cell is a one-vertex path or was reached from a mask up to
    [k]. *)
Definition recent (n k : Z) (s : state) : Prop :=
  forall m v, 0 <= m < 2 ^ n -> 0 <= v < n ->
    dpv s m v = true -> m = 2 ^ v \/ Z.lxor m (2 ^ v) <= k.

(** The vertices below [u0] are done with for the mask [k]: their true
    cells have been extended along every edge leaving the mask. *)
Definition done_upto (adj : matrix) (k u0 : Z) (s : state) : Prop :=
  forall u v, 0 <= u < py_len adj -> 0 <= v < py_len adj -> u < u0 ->
    dpv s k u = true -> Z.testbit k v = false -> has_edge adj u v = true ->
    dpv s (Z.lor k (2 ^ v)) v = true.

(** * Proofs *)

(** ** The scenarios of the specification *)

Example scenario_A :
  find_hamiltonian_path 3 [[0;1;0];[0;0;1];[1;0;0]] = Ok (true, [1;2;0]).
Proof. vm_compute. reflexivity. Qed.

Example scenario_B :
  find_hamiltonian_path 3 [[0;0;0];[0;0;0];[0;0;0]] = Ok (false, []).
Proof. vm_compute. reflexivity. Qed.

Example scenario_C :
  find_hamiltonian_path 4 [[0;1;0;0];[0;0;0;0];[0;0;0;1];[0;0;0;0]]
  = Ok (false, []).
Proof. vm_compute. reflexivity. Qed.

Example scenario_D :
  find_hamiltonian_path 4 [[0;1;0;0];[0;0;1;0];[0;0;0;1];[0;0;0;0]]
  = Ok (true, [0;1;2;3]).
Proof. vm_compute. reflexivity. Qed.

Example ragged_matrix_raises :
  find_hamiltonian_path 2 [[0];[1;0]] = Raise IndexError.
Proof. vm_compute. reflexivity. Qed.

(** ** Lists read and written in range *)

Lemma py_index_in_range {A} (l : list A) i :
  0 <= i < py_len l -> py_index l i = Some (Z.to_nat i).
Proof.
  intros [H0 H1]. unfold py_index.
  destruct (Z.leb_spec 0 i); [|lia].
  destruct (Z.ltb_spec i (py_len l)); [|lia]. reflexivity.
Qed.

Lemma getitem_in_range {A} (l : list A) i :
  0 <= i < py_len l -> exists x, l !! Z.to_nat i = Some x /\ getitem l i = Ok x.
Proof.
  intros Hi. unfold getitem. rewrite py_index_in_range by assumption.
  destruct (lookup_lt_is_Some_2 l (Z.to_nat i)) as [x Hx].
  { unfold py_len in Hi. lia. }
  exists x. rewrite Hx. auto.
Qed.

Lemma setitem_in_range {A} (l : list A) i x :
  0 <= i < py_len l -> setitem l i x = Ok (<[Z.to_nat i := x]> l).
Proof.
  intros Hi. unfold setitem. rewrite py_index_in_range by assumption.
  reflexivity.
Qed.

Section Tables.
Context {A : Type}.
Implicit Types (t : list (list A)).

Lemma table_row rows cols t m :
  table_ok rows cols t -> 0 <= m < rows ->
  exists row, t !! Z.to_nat m = Some row /\ getitem t m = Ok row
              /\ py_len row = cols.
Proof.
  intros [Hlen Hrows] Hm.
  destruct (getitem_in_range t m) as (row & Hrow & Hget); [lia|].
  exists row. split; [assumption|]. split; [assumption|].
  rewrite Forall_forall in Hrows. apply Hrows.
  apply list_elem_of_lookup. eauto.
Qed.

Lemma getitem2_in_range d rows cols t m v :
  table_ok rows cols t -> 0 <= m < rows -> 0 <= v < cols ->
  getitem2 t m v = Ok (cellv d t m v).
Proof.
  intros Ht Hm Hv. unfold cellv.
  destruct (table_row _ _ _ _ Ht Hm) as (row & _ & Hget & Hlen).
  unfold getitem2. rewrite Hget.
  destruct (getitem_in_range row v) as (x & _ & Hx); [lia|].
  rewrite Hx. reflexivity.
Qed.

Lemma setitem2_in_range d rows cols t m v x :
  table_ok rows cols t -> 0 <= m < rows -> 0 <= v < cols ->
  exists t',
    setitem2 t m v x = Ok t' /\ table_ok rows cols t'
    /\ cellv d t' m v = x
    /\ (forall m' v', 0 <= m' < rows -> 0 <= v' < cols ->
          (m' <> m \/ v' <> v) -> cellv d t' m' v' = cellv d t m' v').
Proof.
  intros Ht Hm Hv.
  destruct (table_row _ _ _ _ Ht Hm) as (row & Hrow & Hget & Hlen).
  pose proof Ht as [Hlt Hall].
  exists (<[Z.to_nat m := <[Z.to_nat v := x]> row]> t).
  assert (Ht' : table_ok rows cols (<[Z.to_nat m := <[Z.to_nat v := x]> row]> t)).
  { split.
    - unfold py_len. rewrite length_insert. exact Hlt.
    - apply Forall_insert; [assumption|].
      unfold py_len. rewrite length_insert. exact Hlen. }
  split.
  { unfold setitem2. rewrite Hget.
    rewrite setitem_in_range by lia. apply setitem_in_range. lia. }
  split; [assumption|].
  assert (Hread : forall m' v', 0 <= m' < rows -> 0 <= v' < cols ->
    cellv d (<[Z.to_nat m := <[Z.to_nat v := x]> row]> t) m' v'
    = if decide (m' = m) then
        if decide (v' = v) then x else cellv d t m' v'
      else cellv d t m' v').
  { intros m' v' Hm' Hv'. unfold cellv, getitem2, getitem.
    rewrite !py_index_in_range by (unfold py_len; rewrite ?length_insert; fold (py_len t); lia).
    destruct (decide (m' = m)) as [->|Hne].
    - rewrite list_lookup_insert_eq by (unfold py_len in Hlt; lia).
      rewrite Hrow.
      rewrite !py_index_in_range
        by (unfold py_len; rewrite ?length_insert; fold (py_len row); lia).
      destruct (decide (v' = v)) as [->|Hnv].
      + rewrite list_lookup_insert_eq by (unfold py_len in Hlen; lia).
        reflexivity.
      + rewrite list_lookup_insert_ne by lia. reflexivity.
    - rewrite list_lookup_insert_ne by lia. reflexivity. }
  split.
  - rewrite Hread by assumption. rewrite !decide_True by reflexivity.
    reflexivity.
  - intros m' v' Hm' Hv' Hne. rewrite Hread by assumption.
    destruct (decide (m' = m)); [|reflexivity].
    destruct (decide (v' = v)); [lia|reflexivity].
Qed.
End Tables.

(** ** Masks as sets of vertices *)

Section Bits.
Lemma shiftl_1_pow2 v : Z.shiftl 1 v = 2 ^ v.
Proof. apply Z.shiftl_1_l. Qed.

Lemma testbit_pow2 v i : 0 <= v -> Z.testbit (2 ^ v) i = (v =? i).
Proof. intros Hv. apply Z.pow2_bits_eqb. assumption. Qed.

Lemma land_pow2_eqb m v :
  0 <= v -> (Z.land m (2 ^ v) =? 0) = negb (Z.testbit m v).
Proof.
  intros Hv. destruct (Z.testbit m v) eqn:Hb; simpl.
  - apply Z.eqb_neq. intros H0.
    assert (Hc : Z.testbit (Z.land m (2 ^ v)) v = true).
    { rewrite Z.land_spec, Hb, testbit_pow2, Z.eqb_refl by assumption.
      reflexivity. }
    rewrite H0, Z.bits_0 in Hc. discriminate.
  - apply Z.eqb_eq. apply Z.bits_inj'. intros i Hi.
    rewrite Z.land_spec, Z.bits_0, testbit_pow2 by assumption.
    destruct (Z.eqb_spec v i) as [->|]; [rewrite Hb|]; 
      auto using andb_false_r.
Qed.

Lemma testbit_lor_pow2 m v i :
  0 <= v -> Z.testbit (Z.lor m (2 ^ v)) i = Z.testbit m i || (v =? i).
Proof. intros Hv. rewrite Z.lor_spec, testbit_pow2 by assumption. reflexivity. Qed.

Lemma testbit_lxor_pow2 m v i :
  0 <= v -> Z.testbit (Z.lxor m (2 ^ v)) i = xorb (Z.testbit m i) (v =? i).
Proof. intros Hv. rewrite Z.lxor_spec, testbit_pow2 by assumption. reflexivity. Qed.

(** A mask is below [2 ^ n] exactly when it has no bit from [n] up. *)
Lemma mask_bound_bits n m :
  0 <= n ->
  (0 <= m < 2 ^ n <-> forall i, n <= i -> Z.testbit m i = false).
Proof.
  intros Hn. split.
  - intros Hm i Hi. rewrite <- (Z.mod_small m (2 ^ n)) by assumption.
    apply Z.mod_pow2_bits_high. lia.
  - intros Hhigh.
    assert (Heq : m = m mod 2 ^ n).
    { apply Z.bits_inj'. intros i Hi.
      destruct (Z.lt_ge_cases i n).
      - rewrite Z.mod_pow2_bits_low by assumption. reflexivity.
      - rewrite Z.mod_pow2_bits_high by lia. apply Hhigh. assumption. }
    rewrite Heq. apply Z.mod_pos_bound. apply Z.pow_pos_nonneg; lia.
Qed.

Lemma lor_pow2_add m v :
  0 <= v -> Z.testbit m v = false -> Z.lor m (2 ^ v) = m + 2 ^ v.
Proof.
  intros Hv Hb.
  assert (H0 : Z.land m (2 ^ v) = 0).
  { apply Z.eqb_eq. rewrite land_pow2_eqb, Hb by assumption. reflexivity. }
  rewrite Z.add_nocarry_lxor by assumption.
  symmetry. apply Z.lxor_lor. assumption.
Qed.

Lemma lor_pow2_bound n m v :
  0 <= m < 2 ^ n -> 0 <= v < n -> 0 <= Z.lor m (2 ^ v) < 2 ^ n.
Proof.
  intros Hm Hv. apply mask_bound_bits; [lia|]. intros i Hi.
  rewrite testbit_lor_pow2 by lia.
  assert (Hmi : Z.testbit m i = false).
  { apply (proj1 (mask_bound_bits n m ltac:(lia)) Hm). assumption. }
  rewrite Hmi. simpl. apply Z.eqb_neq. lia.
Qed.

Lemma lxor_lor_pow2 m v :
  0 <= v -> Z.testbit m v = false -> Z.lxor (Z.lor m (2 ^ v)) (2 ^ v) = m.
Proof.
  intros Hv Hb. apply Z.bits_inj'. intros i Hi.
  rewrite testbit_lxor_pow2, testbit_lor_pow2 by assumption.
  destruct (Z.eqb_spec v i) as [->|]; [rewrite Hb|]; simpl;
    auto using orb_false_r, xorb_false_r.
  rewrite orb_false_r, xorb_false_r. reflexivity.
Qed.

Lemma lor_lxor_pow2 m v :
  0 <= v -> Z.testbit m v = true -> Z.lor (Z.lxor m (2 ^ v)) (2 ^ v) = m.
Proof.
  intros Hv Hb. apply Z.bits_inj'. intros i Hi.
  rewrite testbit_lor_pow2, testbit_lxor_pow2 by assumption.
  destruct (Z.eqb_spec v i) as [->|]; [rewrite Hb; reflexivity|].
  rewrite orb_false_r, xorb_false_r. reflexivity.
Qed.

(** Clearing a bit that is set gives a smaller mask. *)
Lemma lxor_pow2_bound m v :
  0 <= m -> 0 <= v -> Z.testbit m v = true ->
  0 <= Z.lxor m (2 ^ v) < m.
Proof.
  intros Hm Hv Hb.
  assert (Hc : Z.testbit (Z.lxor m (2 ^ v)) v = false).
  { rewrite testbit_lxor_pow2, Hb, Z.eqb_refl by assumption. reflexivity. }
  pose proof (lor_pow2_add _ _ Hv Hc) as Hadd.
  rewrite lor_lxor_pow2 in Hadd by assumption.
  assert (0 < 2 ^ v) by (apply Z.pow_pos_nonneg; lia).
  assert (0 <= Z.lxor m (2 ^ v)).
  { apply Z.lxor_nonneg. split; intros; [lia|assumption]. }
  lia.
Qed.

Lemma testbit_full_mask n i :
  0 <= n -> 0 <= i -> Z.testbit (2 ^ n - 1) i = (i <? n).
Proof.
  intros Hn Hi. replace (2 ^ n - 1) with (Z.ones n)
    by (rewrite Z.ones_equiv; lia).
  destruct (Z.ltb_spec i n).
  - apply Z.ones_spec_low. lia.
  - apply Z.ones_spec_high. lia.
Qed.
End Bits.

(** ** How the tables grow *)

Lemma py_len_nonneg {A} (l : list A) : 0 <= py_len l.
Proof. unfold py_len. lia. Qed.

Lemma write_once_refl n s : write_once n s s.
Proof. intros m v _ _. split; auto. Qed.

Lemma write_once_trans n s1 s2 s3 :
  write_once n s1 s2 -> write_once n s2 s3 -> write_once n s1 s3.
Proof.
  intros H12 H23 m v Hm Hv.
  destruct (H12 m v Hm Hv) as [Ha Hb], (H23 m v Hm Hv) as [Hc Hd].
  split.
  - intros H1. destruct (Ha H1) as [H2 Hp]. destruct (Hc H2) as [H3 Hq].
    split; congruence.
  - intros H3. destruct (dpv s2 m v) eqn:H2.
    + destruct (Hc eq_refl) as [H3' _]. congruence.
    + rewrite (Hd H3). apply Hb. reflexivity.
Qed.

Lemma grows_refl n k s : grows n k s s.
Proof. split; [apply write_once_refl|]. intros m v _ _ _. reflexivity. Qed.

Lemma grows_trans n k s1 s2 s3 :
  grows n k s1 s2 -> grows n k s2 s3 -> grows n k s1 s3.
Proof.
  intros [Hw1 Hf1] [Hw2 Hf2]. split; [eapply write_once_trans; eauto|].
  intros m v Hm Hv Hk. rewrite (Hf2 m v Hm Hv Hk). apply Hf1; assumption.
Qed.

Lemma grows_weaken n k k' s s' : k' <= k -> grows n k s s' -> grows n k' s s'.
Proof.
  intros Hk [Hw Hf]. split; [assumption|].
  intros m v Hm Hv Hle. apply Hf; try assumption. lia.
Qed.

Lemma grows_true n k s s' m v :
  grows n k s s' -> 0 <= m < 2 ^ n -> 0 <= v < n ->
  dpv s m v = true -> dpv s' m v = true.
Proof. intros [Hw _] Hm Hv H. apply (Hw m v Hm Hv). assumption. Qed.

Lemma grows_dp_mono n k s s' : grows n k s s' -> dp_mono n s s'.
Proof. intros Hg m v Hm Hv. eapply grows_true; eassumption. Qed.

(** ** Ranges and loops *)

Lemma bind_ok {A B} (c : M A) (k : A -> M B) s s' a :
  c s = (s', Ok a) -> bind c k s = k a s'.
Proof. intros H. unfold bind. rewrite H. reflexivity. Qed.

Lemma range_In k x : In x (range k) <-> 0 <= x < k.
Proof.
  unfold range. rewrite in_map_iff. split.
  - intros (i & <- & Hi). apply in_seq in Hi. lia.
  - intros Hx. exists (Z.to_nat x). split; [lia|]. apply in_seq. lia.
Qed.

Lemma range_length k : 0 <= k -> py_len (range k) = k.
Proof.
  intros Hk. unfold py_len, range.
  rewrite length_map, length_seq. lia.
Qed.

Lemma range_succ (k : nat) :
  range (Z.of_nat (S k)) = range (Z.of_nat k) ++ [Z.of_nat k].
Proof.
  unfold range. rewrite !Nat2Z.id, seq_S, map_app. reflexivity.
Qed.

Lemma range_NoDup k : NoDup (range k).
Proof.
  unfold range. apply NoDup_fmap_2; [|apply NoDup_seq].
  intros a b Hab. lia.
Qed.

Lemma for_each_app {X} (l1 l2 : list X) (body : X -> M unit) s :
  for_each (l1 ++ l2) body s = (for_each l1 body ;; for_each l2 body) s.
Proof.
  revert s. induction l1 as [|x l1 IH]; intros s; simpl.
  - reflexivity.
  - unfold bind. destruct (body x s) as [s1 [[]| |]]; try reflexivity.
    rewrite IH. reflexivity.
Qed.

(** The rule for a [for] loop whose body cannot fail under the invariant
    [I]: the loop cannot fail either, it keeps [I], the stores it goes
    through are related by the preorder [R], and what each iteration
    establishes ([Q]) still holds at the end if [R] preserves it. *)
Lemma for_each_spec {X} (I : state -> Prop) (R : state -> state -> Prop)
    (Q : X -> state -> Prop) (body : X -> M unit) (l : list X) :
  (forall s, R s s) ->
  (forall s1 s2 s3, R s1 s2 -> R s2 s3 -> R s1 s3) ->
  (forall x s s', In x l -> I s -> R s s' -> Q x s -> Q x s') ->
  (forall x s, In x l -> I s ->
     exists s', body x s = (s', Ok tt) /\ I s' /\ R s s' /\ Q x s') ->
  forall s, I s ->
    exists s', for_each l body s = (s', Ok tt) /\ I s' /\ R s s'
               /\ forall x, In x l -> Q x s'.
Proof.
  intros Hrefl Htrans. induction l as [|x l IH]; intros Hstable Hbody s HI.
  - exists s. simpl. unfold ret. repeat split; auto. intros x [].
  - destruct (Hbody x s (or_introl eq_refl) HI) as (s1 & Hrun1 & HI1 & HR1 & HQ1).
    destruct (IH (fun y a b Hy => Hstable y a b (or_intror Hy))
                 (fun y a Hy => Hbody y a (or_intror Hy)) s1 HI1)
      as (s2 & Hrun2 & HI2 & HR2 & HQ2).
    exists s2. split; [simpl; erewrite bind_ok by exact Hrun1; exact Hrun2|].
    split; [assumption|]. split; [eauto|].
    intros y [<-|Hy]; [|auto].
    apply (Hstable x s1 s2); auto. left. reflexivity.
Qed.

(** ** Paths *)

Lemma consecutive_ok_snoc adj p a b :
  consecutive_ok adj (p ++ [a; b])
  = consecutive_ok adj (p ++ [a]) && has_edge adj a b.
Proof.
  induction p as [|x p IH].
  - simpl. rewrite andb_true_r. reflexivity.
  - change ((x :: p) ++ [a; b]) with (x :: (p ++ [a; b])).
    change ((x :: p) ++ [a]) with (x :: (p ++ [a])).
    destruct p as [|y p].
    + simpl. rewrite !andb_true_r. reflexivity.
    + simpl in *. rewrite IH. rewrite andb_assoc. reflexivity.
Qed.

Lemma consecutive_ok_lookup adj p :
  consecutive_ok adj p = true <->
  forall (i : nat) a b, p !! i = Some a -> p !! S i = Some b ->
    has_edge adj a b = true.
Proof.
  induction p as [|x p IH]; [split; [intros _ i a b H; discriminate|reflexivity]|].
  destruct p as [|y p].
  - split; [|reflexivity]. intros _ [|i] a b Ha Hb; discriminate.
  - change (consecutive_ok adj (x :: y :: p))
      with (has_edge adj x y && consecutive_ok adj (y :: p)).
    rewrite andb_true_iff, IH. split.
    + intros [Hxy Hrest] [|i] a b Ha Hb.
      * simpl in Ha, Hb. congruence.
      * apply (Hrest i); assumption.
    + intros H. split.
      * apply (H 0%nat); reflexivity.
      * intros i a b Ha Hb. apply (H (S i)); assumption.
Qed.

Section Paths.
Variable adj : matrix.
Abbreviation n := (py_len adj).

Lemma hpath_head m v l : hpath adj m v l -> exists r, l = v :: r.
Proof. intros H. destruct H; eauto. Qed.

Lemma hpath_bits m v l :
  hpath adj m v l -> forall i, Z.testbit m i = true <-> In i l.
Proof.
  induction 1 as [v Hv|m u v l Hp IH Hv Hb He]; intros i.
  - rewrite testbit_pow2 by lia. simpl. rewrite Z.eqb_eq. tauto.
  - rewrite testbit_lor_pow2 by lia. simpl.
    rewrite orb_true_iff, Z.eqb_eq, IH. tauto.
Qed.

Lemma hpath_range m v l :
  hpath adj m v l -> forall i, In i l -> 0 <= i < n.
Proof.
  induction 1 as [v Hv|m u v l Hp IH Hv Hb He]; intros i [<-|Hi];
    auto; contradiction.
Qed.

Lemma hpath_end_range m v l : hpath adj m v l -> 0 <= v < n.
Proof. intros H. destruct H; assumption. Qed.

Lemma hpath_mask_range m v l : hpath adj m v l -> 0 <= m < 2 ^ n.
Proof.
  intros H. apply mask_bound_bits; [apply py_len_nonneg|].
  intros i Hi. destruct (Z.testbit m i) eqn:Hb; [|reflexivity].
  apply (hpath_bits _ _ _ H) in Hb. apply (hpath_range _ _ _ H) in Hb. lia.
Qed.

Lemma hpath_NoDup m v l : hpath adj m v l -> NoDup l.
Proof.
  induction 1 as [v Hv|m u v l Hp IH Hv Hb He].
  - constructor; [|constructor]. intros H. inversion H.
  - constructor; [|assumption]. intros Hin.
    apply list_elem_of_In, (hpath_bits _ _ _ Hp) in Hin. congruence.
Qed.

Lemma hpath_walk m v l :
  hpath adj m v l -> consecutive_ok adj (rev l) = true.
Proof.
  induction 1 as [v Hv|m u v l Hp IH Hv Hb He]; [reflexivity|].
  destruct (hpath_head _ _ _ Hp) as [r ->].
  simpl in *. rewrite <- app_assoc. simpl.
  rewrite consecutive_ok_snoc, IH, He. reflexivity.
Qed.

(** A path through every vertex is a list of all of them. *)
Lemma hpath_full v l :
  hpath adj (2 ^ n - 1) v l -> Permutation l (range n).
Proof.
  intros H. apply NoDup_Permutation.
  - eapply hpath_NoDup; eassumption.
  - apply range_NoDup.
  - intros i. rewrite !list_elem_of_In, range_In. split.
    + apply (hpath_range _ _ _ H).
    + intros Hi. apply (hpath_bits _ _ _ H).
      rewrite testbit_full_mask by (lia || apply py_len_nonneg).
      apply Z.ltb_lt. lia.
Qed.

(** Conversely, any path without repetition is an [hpath] for the mask
    of its vertices. *)
Lemma walk_hpath v r :
  NoDup (v :: r) -> (forall i, In i (v :: r) -> 0 <= i < n) ->
  consecutive_ok adj (rev (v :: r)) = true ->
  exists m, hpath adj m v (v :: r).
Proof.
  revert v. induction r as [|u r IH]; intros v Hnd Hrange Hwalk.
  - exists (2 ^ v). constructor. apply Hrange. left. reflexivity.
  - inversion Hnd as [|? ? Hnotin Hnd']; subst.
    simpl in Hwalk. rewrite <- app_assoc in Hwalk. simpl in Hwalk.
    rewrite consecutive_ok_snoc in Hwalk.
    apply andb_true_iff in Hwalk as [Hwalk He].
    destruct (IH u Hnd') as [m Hp].
    { intros i Hi. apply Hrange. right. assumption. }
    { exact Hwalk. }
    exists (Z.lor m (2 ^ v)). apply (hpath_ext adj m u); try assumption.
    + apply Hrange. left. reflexivity.
    + destruct (Z.testbit m v) eqn:Hb; [|reflexivity].
      apply (hpath_bits _ _ _ Hp) in Hb.
      apply list_elem_of_In in Hb. contradiction.
Qed.

Lemma hpath_mask_unique m v l :
  hpath adj m v l -> (forall i, In i l <-> 0 <= i < n) -> m = 2 ^ n - 1.
Proof.
  intros H Hall. apply Z.bits_inj'. intros i Hi.
  rewrite testbit_full_mask by (lia || apply py_len_nonneg).
  destruct (Z.ltb_spec i n) as [Hlt|Hge].
  - apply (hpath_bits _ _ _ H), Hall. lia.
  - destruct (Z.testbit m i) eqn:Hb; [|reflexivity].
    apply (hpath_bits _ _ _ H), Hall in Hb. lia.
Qed.
End Paths.

(** The tables as allocated: every cell holds the initial value. *)
Lemma fresh_table {A} (d x : A) (rows cols : Z) :
  0 <= rows -> 0 <= cols ->
  table_ok rows cols
    (map (fun _ => replicate (Z.to_nat cols) x) (range rows))
  /\ forall m v, 0 <= m < rows -> 0 <= v < cols ->
       cellv d (map (fun _ => replicate (Z.to_nat cols) x) (range rows)) m v
       = x.
Proof.
  intros Hrows Hcols.
  set (t := map (fun _ => replicate (Z.to_nat cols) x) (range rows)).
  assert (Hrow : forall r, r ∈ t -> r = replicate (Z.to_nat cols) x).
  { intros r Hr. apply list_elem_of_In in Hr. unfold t in Hr.
    apply in_map_iff in Hr as (? & <- & _). reflexivity. }
  assert (Ht : table_ok rows cols t).
  { split.
    - unfold py_len, t. rewrite length_map. apply range_length. assumption.
    - apply Forall_forall. intros r Hr. rewrite (Hrow r Hr).
      unfold py_len. rewrite length_replicate. lia. }
  split; [assumption|]. intros m v Hm Hv.
  destruct (table_row _ _ _ _ Ht Hm) as (row & Hlook & Hget & Hlen).
  unfold cellv, getitem2. rewrite Hget.
  destruct (getitem_in_range row v) as (y & Hy & Hgety); [lia|].
  rewrite Hgety. rewrite (Hrow row) in Hy
    by (apply list_elem_of_lookup; eauto).
  apply lookup_replicate in Hy. tauto.
Qed.

(** ** The statements of the function, on a square matrix *)

Section Body.
Variable adj : matrix.
Hypothesis Hsquare : square adj.
Abbreviation n := (py_len adj).

Lemma adj_table : table_ok n n adj.
Proof. split; [reflexivity | exact Hsquare]. Qed.

Lemma dp_get_spec s m v :
  shape adj s -> 0 <= m < 2 ^ n -> 0 <= v < n ->
  dp_get m v s = (s, Ok (dpv s m v)).
Proof.
  intros (_ & Hdp & _) Hm Hv. unfold dp_get, dpv.
  erewrite getitem2_in_range by eassumption. reflexivity.
Qed.

Lemma parent_get_spec s m v :
  shape adj s -> 0 <= m < 2 ^ n -> 0 <= v < n ->
  parent_get m v s = (s, Ok (parv s m v)).
Proof.
  intros (_ & _ & Hpar) Hm Hv. unfold parent_get, parv.
  erewrite getitem2_in_range by eassumption. reflexivity.
Qed.

Lemma adj_get_spec s u v :
  shape adj s -> 0 <= u < n -> 0 <= v < n ->
  exists x, adj_get u v s = (s, Ok x) /\ truthy x = has_edge adj u v.
Proof.
  intros (Hadj & _) Hu Hv. unfold adj_get, has_edge. rewrite Hadj.
  rewrite (getitem2_in_range 0 n n) by (auto using adj_table).
  eexists. split; reflexivity.
Qed.

(** Lines 29-30 and 42-43: the two assignments that record a cell. *)
Lemma record_cell s m v p :
  shape adj s -> 0 <= m < 2 ^ n -> 0 <= v < n ->
  exists s', (dp_set m v true ;; parent_set m v p) s = (s', Ok tt)
             /\ shape adj s' /\ marked n m v p s s'.
Proof.
  intros (Hadj & Hdp & Hpar) Hm Hv.
  destruct (setitem2_in_range false _ _ _ m v true Hdp Hm Hv)
    as (t1 & Hset1 & Hok1 & Hnew1 & Hold1).
  destruct (setitem2_in_range (-1) _ _ _ m v p Hpar Hm Hv)
    as (t2 & Hset2 & Hok2 & Hnew2 & Hold2).
  exists (mkState (st_adj s) t1 t2). split.
  { unfold bind, dp_set, parent_set. rewrite Hset1. simpl.
    rewrite Hset2. reflexivity. }
  split; [split; [exact Hadj | split; assumption]|].
  unfold marked, dpv, parv. simpl. split; [assumption|].
  split; [assumption|]. intros m' v' Hm' Hv' Hne. split; auto.
Qed.

Lemma marked_dp_mono s s' m v p : marked n m v p s s' -> dp_mono n s s'.
Proof.
  intros (Hdp & _ & Hother) m' v' Hm' Hv' Htrue.
  destruct (Z.eq_dec m' m) as [->|Hne]; [destruct (Z.eq_dec v' v) as [->|Hnv]|].
  - assumption.
  - rewrite (proj1 (Hother m v' Hm' Hv' (or_intror Hnv))). assumption.
  - rewrite (proj1 (Hother m' v' Hm' Hv' (or_introl Hne))). assumption.
Qed.

(** Recording a cell that is justified keeps the table sound. *)
Lemma marked_sound s s' m v p :
  sound adj s -> marked n m v p s s' ->
  0 <= m < 2 ^ n -> 0 <= v < n -> Z.testbit m v = true ->
  (p = -1 /\ m = 2 ^ v)
  \/ (0 <= p < n /\ has_edge adj p v = true
      /\ dpv s (Z.lxor m (2 ^ v)) p = true) ->
  sound adj s'.
Proof.
  intros Hsound Hmk Hm Hv Hbit Hjust.
  pose proof (marked_dp_mono _ _ _ _ _ Hmk) as Hmono.
  destruct Hmk as (Hdp & Hpar & Hother).
  assert (Hprev : forall m0 v0 q, 0 <= m0 < 2 ^ n -> 0 <= v0 < n ->
            0 <= q < n -> Z.testbit m0 v0 = true ->
            dpv s (Z.lxor m0 (2 ^ v0)) q = true ->
            dpv s' (Z.lxor m0 (2 ^ v0)) q = true).
  { intros m0 v0 q Hm0 Hv0 Hq Hb0 Htrue. apply Hmono; try assumption.
    pose proof (lxor_pow2_bound m0 v0 ltac:(lia) ltac:(lia) Hb0). lia. }
  intros m' v' Hm' Hv' Htrue.
  assert (Hold : m' <> m \/ v' <> v ->
    Z.testbit m' v' = true
    /\ ((parv s' m' v' = -1 /\ m' = 2 ^ v')
        \/ (0 <= parv s' m' v' < n
            /\ has_edge adj (parv s' m' v') v' = true
            /\ dpv s' (Z.lxor m' (2 ^ v')) (parv s' m' v') = true))).
  { intros Hne. destruct (Hother m' v' Hm' Hv' Hne) as [E1 E2].
    rewrite E1 in Htrue. rewrite E2.
    destruct (Hsound m' v' Hm' Hv' Htrue) as [Hb Hcase].
    split; [assumption|].
    destruct Hcase as [?|(Hr & Hedge & Hp)]; [left; assumption|].
    right. auto. }
  destruct (Z.eq_dec m' m) as [Hem|Hne];
    [destruct (Z.eq_dec v' v) as [Hev|Hnv]|]; [|auto|auto].
  subst m' v'. split; [assumption|]. rewrite Hpar.
  destruct Hjust as [?|(Hr & Hedge & Hp)]; [left; assumption|].
  right. auto.
Qed.

(** Lines 38-43 on a well-formed store: the cell is recorded when [v] is
    outside [mask], the edge is there and the cell is still false, and
    nothing happens otherwise. *)
Lemma try_extend_spec s mask u v :
  shape adj s -> 0 <= mask < 2 ^ n -> 0 <= u < n -> 0 <= v < n ->
  exists s', try_extend mask u v s = (s', Ok tt) /\ shape adj s'
    /\ if negb (Z.testbit mask v) && has_edge adj u v
          && negb (dpv s (Z.lor mask (2 ^ v)) v)
       then marked n (Z.lor mask (2 ^ v)) v u s s'
       else s' = s.
Proof.
  intros Hs Hm Hu Hv. unfold try_extend.
  rewrite shiftl_1_pow2, land_pow2_eqb by lia.
  destruct (Z.testbit mask v) eqn:Hb; simpl.
  { exists s. auto. }
  destruct (adj_get_spec s u v Hs Hu Hv) as (x & Hx & Htr).
  erewrite (bind_ok (x <- adj_get u v ;; ret (truthy x)))
    by (erewrite bind_ok by exact Hx; reflexivity).
  rewrite Htr. destruct (has_edge adj u v); simpl; [|exists s; auto].
  pose proof (lor_pow2_bound n mask v Hm Hv) as Hnext.
  erewrite bind_ok by (apply dp_get_spec; eassumption).
  destruct (dpv s (Z.lor mask (2 ^ v)) v); simpl; [exists s; auto|].
  apply record_cell; assumption.
Qed.

Lemma marked_grows s s' mask v p :
  0 <= mask -> 0 <= v -> Z.testbit mask v = false ->
  dpv s (Z.lor mask (2 ^ v)) v = false ->
  marked n (Z.lor mask (2 ^ v)) v p s s' -> grows n mask s s'.
Proof.
  intros Hm Hv Hb Hfalse (Hdp & Hpar & Hother).
  assert (Hlt : mask < Z.lor mask (2 ^ v)).
  { rewrite lor_pow2_add by assumption.
    assert (0 < 2 ^ v) by (apply Z.pow_pos_nonneg; lia). lia. }
  split.
  - intros m' v' Hm' Hv'.
    destruct (Z.eq_dec m' (Z.lor mask (2 ^ v))) as [->|Hne];
      [destruct (Z.eq_dec v' v) as [->|Hnv]|].
    + split; intros H; congruence.
    + destruct (Hother _ v' Hm' Hv') as [E1 E2]; [auto|].
      rewrite E1, E2. auto.
    + destruct (Hother m' v' Hm' Hv') as [E1 E2]; [auto|].
      rewrite E1, E2. auto.
  - intros m' v' Hm' Hv' Hle.
    apply (Hother m' v' Hm' Hv'). left. lia.
Qed.

Lemma try_extend_grows s s' mask u v :
  shape adj s -> 0 <= mask < 2 ^ n -> 0 <= u < n -> 0 <= v < n ->
  try_extend mask u v s = (s', Ok tt) -> grows n mask s s'.
Proof.
  intros Hs Hm Hu Hv Hrun.
  destruct (try_extend_spec s mask u v Hs Hm Hu Hv) as (s1 & Hrun1 & _ & Hc).
  rewrite Hrun in Hrun1. injection Hrun1 as <-.
  destruct (Z.testbit mask v) eqn:Hb; simpl in Hc;
    [subst; apply grows_refl|].
  destruct (has_edge adj u v); simpl in Hc; [|subst; apply grows_refl].
  destruct (dpv s (Z.lor mask (2 ^ v)) v) eqn:Hd; simpl in Hc;
    [subst; apply grows_refl|].
  eapply marked_grows; eauto; lia.
Qed.

(** The cell asked for is true afterwards. *)
Lemma try_extend_post s s' mask u v :
  shape adj s -> 0 <= mask < 2 ^ n -> 0 <= u < n -> 0 <= v < n ->
  try_extend mask u v s = (s', Ok tt) ->
  Z.testbit mask v = false -> has_edge adj u v = true ->
  dpv s' (Z.lor mask (2 ^ v)) v = true.
Proof.
  intros Hs Hm Hu Hv Hrun Hb He.
  destruct (try_extend_spec s mask u v Hs Hm Hu Hv) as (s1 & Hrun1 & _ & Hc).
  rewrite Hrun in Hrun1. injection Hrun1 as <-.
  rewrite Hb, He in Hc. simpl in Hc.
  destruct (dpv s (Z.lor mask (2 ^ v)) v) eqn:Hd; simpl in Hc.
  - subst. assumption.
  - apply Hc.
Qed.

Lemma try_extend_sound s s' mask u v :
  shape adj s -> 0 <= mask < 2 ^ n -> 0 <= u < n -> 0 <= v < n ->
  try_extend mask u v s = (s', Ok tt) ->
  dpv s mask u = true -> sound adj s -> sound adj s'.
Proof.
  intros Hs Hm Hu Hv Hrun Hsrc Hsound.
  destruct (try_extend_spec s mask u v Hs Hm Hu Hv) as (s1 & Hrun1 & _ & Hc).
  rewrite Hrun in Hrun1. injection Hrun1 as <-.
  destruct (Z.testbit mask v) eqn:Hb; simpl in Hc; [subst; assumption|].
  destruct (has_edge adj u v) eqn:He; simpl in Hc; [|subst; assumption].
  destruct (dpv s (Z.lor mask (2 ^ v)) v) eqn:Hd; simpl in Hc;
    [subst; assumption|].
  eapply marked_sound; [exact Hsound | exact Hc | | assumption | | ].
  - apply lor_pow2_bound; assumption.
  - rewrite testbit_lor_pow2, Z.eqb_refl by lia. apply orb_true_r.
  - right. rewrite lxor_lor_pow2 by (assumption || lia). auto.
Qed.

(** *** The loop over [v], and the body of the loop over [u] *)

Lemma extend_from_spec s mask u :
  shape adj s -> sound adj s -> 0 <= mask < 2 ^ n -> 0 <= u < n ->
  exists s', extend_from n mask u s = (s', Ok tt)
    /\ (shape adj s' /\ sound adj s') /\ grows n mask s s'
    /\ (dpv s' mask u = true ->
        forall v, 0 <= v < n -> Z.testbit mask v = false ->
          has_edge adj u v = true -> dpv s' (Z.lor mask (2 ^ v)) v = true).
Proof.
  intros Hs Hsound Hm Hu. unfold extend_from.
  erewrite bind_ok by (apply dp_get_spec; eassumption).
  destruct (dpv s mask u) eqn:Hsrc.
  2:{ exists s. split; [reflexivity|]. split; [auto|].
      split; [apply grows_refl|]. congruence. }
  destruct (for_each_spec
    (fun a => shape adj a /\ sound adj a /\ dpv a mask u = true)
    (grows n mask)
    (fun v a => Z.testbit mask v = false -> has_edge adj u v = true ->
                dpv a (Z.lor mask (2 ^ v)) v = true)
    (try_extend mask u) (range n)) with (s := s)
    as (s' & Hrun & (Hs' & Hsound' & _) & Hg & Hpost).
  - apply grows_refl.
  - apply grows_trans.
  - intros v a b Hv _ Hab HQ Hb He. apply range_In in Hv.
    eapply grows_true; eauto using lor_pow2_bound.
  - intros v a Hv (Ha & Hsa & Hua). apply range_In in Hv.
    destruct (try_extend_spec a mask u v Ha Hm Hu Hv) as (b & Hrun & Hb & _).
    exists b. split; [assumption|].
    pose proof (try_extend_grows _ _ _ _ _ Ha Hm Hu Hv Hrun) as Hg.
    split; [|split; [assumption|]].
    + split; [assumption|].
      split; [exact (try_extend_sound a b mask u v Ha Hm Hu Hv Hrun Hua Hsa)|].
      exact (grows_true n mask a b mask u Hg Hm Hu Hua).
    + intros Hbit He.
      exact (try_extend_post a b mask u v Ha Hm Hu Hv Hrun Hbit He).
  - auto.
  - exists s'. split; [assumption|]. split; [auto|]. split; [assumption|].
    intros _ v Hv. apply Hpost. apply range_In. assumption.
Qed.

(** *** The body of the loop over [mask] *)

Lemma process_mask_spec s mask :
  shape adj s -> sound adj s -> 0 <= mask < 2 ^ n ->
  exists s', process_mask n mask s = (s', Ok tt)
    /\ (shape adj s' /\ sound adj s') /\ grows n mask s s'
    /\ closed adj mask s'.
Proof.
  intros Hs Hsound Hm. unfold process_mask.
  destruct (for_each_spec
    (fun a => shape adj a /\ sound adj a)
    (grows n mask)
    (fun u a => dpv a mask u = true ->
        forall v, 0 <= v < n -> Z.testbit mask v = false ->
          has_edge adj u v = true -> dpv a (Z.lor mask (2 ^ v)) v = true)
    (extend_from n mask) (range n)) with (s := s)
    as (s' & Hrun & Hinv & Hg & Hpost).
  - apply grows_refl.
  - apply grows_trans.
  - intros u a b Hu _ Hab HQ Hsrc v Hv Hb He. apply range_In in Hu.
    eapply grows_true; eauto using lor_pow2_bound.
    apply HQ; try assumption.
    rewrite <- Hsrc. symmetry. apply Hab; (assumption || lia).
  - intros u a Hu [Ha Hsa]. apply range_In in Hu.
    apply extend_from_spec; assumption.
  - auto.
  - exists s'. split; [assumption|]. split; [assumption|].
    split; [assumption|].
    intros u v Hu Hv Hsrc Hb He.
    apply (Hpost u); try assumption. apply range_In. assumption.
Qed.

(** *** The loop over [mask], up to any mask *)

Lemma main_loop_spec (k : nat) s :
  Z.of_nat k <= 2 ^ n -> shape adj s -> sound adj s ->
  exists s', for_each (range (Z.of_nat k)) (process_mask n) s = (s', Ok tt)
    /\ (shape adj s' /\ sound adj s') /\ grows n (-1) s s'
    /\ forall m, 0 <= m < Z.of_nat k -> closed adj m s'.
Proof.
  induction k as [|k IH]; intros Hk Hs Hsound.
  - exists s. split; [reflexivity|]. split; [auto|].
    split; [apply grows_refl|]. intros m Hm. lia.
  - destruct IH as (s1 & Hrun1 & [Hs1 Hsound1] & Hg1 & Hclosed1);
      [lia|assumption|assumption|].
    destruct (process_mask_spec s1 (Z.of_nat k) Hs1 Hsound1)
      as (s2 & Hrun2 & Hinv2 & Hg2 & Hclosed2); [lia|].
    exists s2. split.
    { rewrite range_succ, for_each_app.
      erewrite bind_ok by exact Hrun1. simpl.
      erewrite bind_ok by exact Hrun2. reflexivity. }
    split; [assumption|]. split.
    { eapply grows_trans; [exact Hg1|].
      eapply grows_weaken; [|exact Hg2]. lia. }
    intros m Hm. destruct (Z.eq_dec m (Z.of_nat k)) as [->|Hne];
      [assumption|].
    intros u v Hu Hv Hsrc Hb He.
    assert (Hm' : 0 <= m < 2 ^ n) by lia.
    eapply grows_true; eauto using lor_pow2_bound.
    apply (Hclosed1 m ltac:(lia) u v); try assumption.
    rewrite <- Hsrc. symmetry. apply Hg2; (assumption || lia).
Qed.

(** *** Allocation and the base case *)

Lemma alloc_tables_spec s :
  st_adj s = adj ->
  exists s', alloc_tables n s = (s', Ok tt) /\ shape adj s'
    /\ forall m v, 0 <= m < 2 ^ n -> 0 <= v < n ->
         dpv s' m v = false /\ parv s' m v = -1.
Proof.
  intros Hadj. unfold alloc_tables. eexists. split; [reflexivity|].
  rewrite shiftl_1_pow2.
  assert (H2 : 0 <= 2 ^ n) by (apply Z.pow_nonneg; lia).
  destruct (fresh_table false false (2 ^ n) n H2 (py_len_nonneg adj))
    as [Hok1 Hcell1].
  destruct (fresh_table (-1) (-1) (2 ^ n) n H2 (py_len_nonneg adj))
    as [Hok2 Hcell2].
  split; [split; [exact Hadj | split; assumption]|].
  intros m v Hm Hv. unfold dpv, parv. simpl. auto.
Qed.

Lemma base_case_spec s v :
  shape adj s -> sound adj s -> 0 <= v < n ->
  exists s', base_case v s = (s', Ok tt)
    /\ (shape adj s' /\ sound adj s') /\ dp_mono n s s'
    /\ dpv s' (2 ^ v) v = true.
Proof.
  intros Hs Hsound Hv. unfold base_case. rewrite shiftl_1_pow2.
  assert (Hm : 0 <= 2 ^ v < 2 ^ n).
  { split; [apply Z.pow_nonneg; lia|]. apply Z.pow_lt_mono_r; lia. }
  destruct (record_cell s (2 ^ v) v (-1) Hs Hm Hv)
    as (s' & Hrun & Hs' & Hdp & Hpar & Hother).
  exists s'. split; [assumption|].
  pose proof (conj Hdp (conj Hpar Hother) : marked n (2 ^ v) v (-1) s s')
    as Hmk.
  split; [split; [assumption|]|split; [eapply marked_dp_mono; exact Hmk|]].
  - eapply marked_sound; [exact Hsound | exact Hmk | | | | ]; auto.
    rewrite testbit_pow2, Z.eqb_refl by lia. reflexivity.
  - assumption.
Qed.

Lemma dp_mono_refl s : dp_mono n s s.
Proof. intros m v _ _ H. exact H. Qed.

Lemma dp_mono_trans s1 s2 s3 :
  dp_mono n s1 s2 -> dp_mono n s2 s3 -> dp_mono n s1 s3.
Proof. intros H12 H23 m v Hm Hv H. auto. Qed.

Lemma pow2_range v : 0 <= v < n -> 0 <= 2 ^ v < 2 ^ n.
Proof.
  intros Hv. split; [apply Z.pow_nonneg; lia|].
  apply Z.pow_lt_mono_r; lia.
Qed.

Lemma base_loop_spec s :
  shape adj s -> sound adj s ->
  exists s', for_each (range n) base_case s = (s', Ok tt)
    /\ (shape adj s' /\ sound adj s')
    /\ forall v, 0 <= v < n -> dpv s' (2 ^ v) v = true.
Proof.
  intros Hs Hsound.
  destruct (for_each_spec
    (fun a => shape adj a /\ sound adj a) (dp_mono n)
    (fun v a => dpv a (2 ^ v) v = true) base_case (range n)) with (s := s)
    as (s' & Hrun & Hinv & _ & Hpost).
  - apply dp_mono_refl.
  - apply dp_mono_trans.
  - intros v a b Hv _ Hab HQ. apply range_In in Hv.
    apply Hab; auto using pow2_range.
  - intros v a Hv [Ha Hsa]. apply range_In in Hv.
    apply base_case_spec; assumption.
  - auto.
  - exists s'. split; [assumption|]. split; [assumption|].
    intros v Hv. apply Hpost, range_In. assumption.
Qed.

(** *** Lines 19-43: the tables are built, whatever comes next *)

Lemma build_spec s :
  st_adj s = adj ->
  exists s', filled adj s' /\
    forall (B : Type) (k : M B),
      (alloc_tables n ;;
       for_each (range n) base_case ;;
       for_each (range (Z.shiftl 1 n)) (process_mask n) ;;
       k) s = k s'.
Proof.
  intros Hadj.
  destruct (alloc_tables_spec s Hadj) as (s0 & Hrun0 & Hs0 & Hfresh).
  assert (Hsound0 : sound adj s0).
  { intros m v Hm Hv Htrue. rewrite (proj1 (Hfresh m v Hm Hv)) in Htrue.
    discriminate. }
  destruct (base_loop_spec s0 Hs0 Hsound0) as (s1 & Hrun1 & [Hs1 Hsound1] & Hbase).
  assert (H2 : 0 <= 2 ^ n) by (apply Z.pow_nonneg; lia).
  destruct (main_loop_spec (Z.to_nat (2 ^ n)) s1 ltac:(lia) Hs1 Hsound1)
    as (s2 & Hrun2 & [Hs2 Hsound2] & Hg & Hclosed).
  rewrite Z2Nat.id in Hrun2, Hclosed by assumption.
  exists s2. split.
  - split; [assumption|]. split; [assumption|]. split; [|assumption].
    intros v Hv. eapply grows_true; eauto using pow2_range.
  - intros B k. rewrite shiftl_1_pow2.
    erewrite bind_ok by exact Hrun0.
    erewrite bind_ok by exact Hrun1.
    erewrite bind_ok by exact Hrun2. reflexivity.
Qed.

(** *** The tables and the paths of the graph *)

(** Completeness: the cell of every path is true. *)
Lemma filled_complete s m v l :
  filled adj s -> hpath adj m v l -> dpv s m v = true.
Proof.
  intros (Hs & Hsound & Hbase & Hclosed).
  induction 1 as [v Hv|m u v l Hp IH Hv Hb He].
  - apply Hbase. assumption.
  - apply (Hclosed m (hpath_mask_range _ _ _ _ Hp) u v); try assumption.
    eapply hpath_end_range. eassumption.
Qed.

(** Soundness: a true cell has a path, which the [while] loop of lines
    52-59 walks back along the parents, using one iteration for each
    vertex. *)
Lemma reconstruct_spec s :
  shape adj s -> sound adj s ->
  forall (k : nat) m v, 0 <= m < Z.of_nat k -> m < 2 ^ n -> 0 <= v < n ->
    dpv s m v = true ->
    exists l, hpath adj m v l /\
      forall fuel acc,
        reconstruct fuel m v acc s
        = (s, if (length l <=? fuel)%nat then Ok (acc ++ l) else OutOfFuel).
Proof.
  intros Hs Hsound. induction k as [|k IH]; intros m v Hk Hm Hv Htrue; [lia|].
  destruct (Hsound m v ltac:(lia) Hv Htrue) as [Hbit Hcase].
  assert (Hne : (v =? -1) = false) by (apply Z.eqb_neq; lia).
  destruct Hcase as [[Hpar ->]|(Hr & He & Hprev)].
  - exists [v]. split; [constructor; assumption|].
    intros [|fuel] acc; simpl; rewrite Hne; [reflexivity|].
    erewrite bind_ok by (apply parent_get_spec; (assumption || lia)).
    rewrite Hpar. reflexivity.
  - pose proof (lxor_pow2_bound m v ltac:(lia) ltac:(lia) Hbit) as Hlt.
    destruct (IH (Z.lxor m (2 ^ v)) (parv s m v)) as (l & Hp & Hrec);
      try (assumption || lia).
    exists (v :: l). split.
    + rewrite <- (lor_lxor_pow2 m v) by (assumption || lia).
      apply (hpath_ext adj _ (parv s m v)); try assumption.
      rewrite testbit_lxor_pow2, Hbit, Z.eqb_refl by lia. reflexivity.
    + intros [|fuel] acc; simpl; rewrite Hne; [reflexivity|].
      erewrite bind_ok by (apply parent_get_spec; (assumption || lia)).
      replace (parv s m v =? -1) with false
        by (symmetry; apply Z.eqb_neq; lia).
      rewrite shiftl_1_pow2, Hrec, <- app_assoc. simpl.
      destruct (length l <=? fuel)%nat; reflexivity.
Qed.

(** *** Lines 46-62: the scan and the result *)

Lemma full_mask_range : 0 <= 2 ^ n - 1 < 2 ^ n.
Proof.
  assert (0 < 2 ^ n)
    by (apply Z.pow_pos_nonneg; [lia | apply py_len_nonneg]).
  lia.
Qed.

Lemma find_end_spec s fuel vs :
  filled adj s -> (forall v, In v vs -> 0 <= v < n) ->
  ((forall v, In v vs -> dpv s (2 ^ n - 1) v = false)
   /\ find_end fuel (2 ^ n - 1) vs s = (s, Ok (false, [])))
  \/ (exists v l, hpath adj (2 ^ n - 1) v l
       /\ find_end fuel (2 ^ n - 1) vs s
          = (s, if (length l <=? fuel)%nat then Ok (true, rev l)
                else OutOfFuel)).
Proof.
  intros (Hs & Hsound & _) Hvs. pose proof full_mask_range as Hfull.
  induction vs as [|v vs IH]; simpl.
  { left. split; [intros v []|reflexivity]. }
  assert (Hv : 0 <= v < n) by (apply Hvs; left; reflexivity).
  erewrite bind_ok by (apply dp_get_spec; assumption).
  destruct (dpv s (2 ^ n - 1) v) eqn:Htrue.
  - right.
    destruct (reconstruct_spec s Hs Hsound (Z.to_nat (2 ^ n)) (2 ^ n - 1) v)
      as (l & Hp & Hrec); try (assumption || lia).
    exists v, l. split; [assumption|].
    unfold bind. rewrite Hrec. simpl.
    destruct (length l <=? fuel)%nat; reflexivity.
  - destruct IH as [[Hnone Hrun]|Hfound].
    + intros w Hw. apply Hvs. right. assumption.
    + left. split; [|assumption]. intros w [<-|Hw]; auto.
    + right. assumption.
Qed.

(** The whole body, from any store that holds [adj]. *)
Lemma find_hamiltonian_path_body_spec s fuel :
  st_adj s = adj ->
  exists s', filled adj s' /\
    (((forall v l, ~ hpath adj (2 ^ n - 1) v l)
      /\ find_hamiltonian_path_body fuel s = (s', Ok (false, [])))
     \/ (exists v l, hpath adj (2 ^ n - 1) v l
          /\ find_hamiltonian_path_body fuel s
             = (s', if (length l <=? fuel)%nat then Ok (true, rev l)
                    else OutOfFuel))).
Proof.
  intros Hadj. destruct (build_spec s Hadj) as (s' & Hfilled & Hrun).
  exists s'. split; [assumption|].
  assert (Hbody : find_hamiltonian_path_body fuel s
                  = find_end fuel (2 ^ n - 1) (range n) s').
  { unfold find_hamiltonian_path_body.
    erewrite bind_ok by (unfold adj_len; rewrite Hadj; reflexivity).
    cbv zeta. rewrite Hrun, shiftl_1_pow2. reflexivity. }
  rewrite Hbody.
  destruct (find_end_spec s' fuel (range n) Hfilled) as [[Hnone Hres]|Hfound].
  - intros v. apply range_In.
  - left. split; [|assumption]. intros v l Hp.
    pose proof (filled_complete s' _ _ _ Hfilled Hp) as Htrue.
    rewrite Hnone in Htrue; [discriminate|].
    apply range_In. eapply hpath_end_range. eassumption.
  - right. assumption.
Qed.
End Body.

(** ** The function as a whole *)

(** On a square matrix the call returns false with the empty list when no
    path goes through every vertex; otherwise it returns such a path, as
    soon as the [while] loop is given one iteration for each vertex. *)
Lemma find_hamiltonian_path_outcome (adj : matrix) (fuel : nat) :
  square adj ->
  ((forall v l, ~ hpath adj (2 ^ py_len adj - 1) v l)
   /\ find_hamiltonian_path fuel adj = Ok (false, []))
  \/ (exists v l, hpath adj (2 ^ py_len adj - 1) v l
       /\ find_hamiltonian_path fuel adj
          = if (length l <=? fuel)%nat then Ok (true, rev l) else OutOfFuel).
Proof.
  intros Hsq. unfold find_hamiltonian_path.
  destruct (find_hamiltonian_path_body_spec adj Hsq (enter adj) fuel eq_refl)
    as (s' & _ & [[Hnone Hrun]|(v & l & Hp & Hrun)]); rewrite Hrun; simpl.
  - left. auto.
  - right. exists v, l. auto.
Qed.

(** A path through every vertex has as many elements as the matrix has
    rows. *)
Lemma hpath_full_length (adj : matrix) v l :
  hpath adj (2 ^ py_len adj - 1) v l -> length l = length adj.
Proof.
  intros Hp. apply hpath_full, Permutation_length in Hp.
  rewrite Hp. unfold range. rewrite length_map, length_seq.
  unfold py_len. lia.
Qed.

(** ** The matrix is only read *)

Lemma keeps_adj_ret {A} (a : A) : keeps_adj (ret a).
Proof. intros s. reflexivity. Qed.

Lemma keeps_adj_bind {A B} (c : M A) (k : A -> M B) :
  keeps_adj c -> (forall a, keeps_adj (k a)) -> keeps_adj (bind c k).
Proof.
  intros Hc Hk s. unfold bind. specialize (Hc s).
  destruct (c s) as [s1 [a|e|]]; simpl in *; [|assumption|assumption].
  rewrite Hk. assumption.
Qed.

Lemma keeps_adj_for_each {X} (l : list X) (body : X -> M unit) :
  (forall x, keeps_adj (body x)) -> keeps_adj (for_each l body).
Proof.
  intros Hbody. induction l as [|x l IH]; simpl.
  - apply keeps_adj_ret.
  - apply keeps_adj_bind; auto.
Qed.

Lemma keeps_adj_dp_get m v : keeps_adj (dp_get m v).
Proof. intros s. reflexivity. Qed.

Lemma keeps_adj_parent_get m v : keeps_adj (parent_get m v).
Proof. intros s. reflexivity. Qed.

Lemma keeps_adj_adj_get u v : keeps_adj (adj_get u v).
Proof. intros s. reflexivity. Qed.

Lemma keeps_adj_dp_set m v b : keeps_adj (dp_set m v b).
Proof.
  intros s. unfold dp_set.
  destruct (setitem2 (st_dp s) m v b); reflexivity.
Qed.

Lemma keeps_adj_parent_set m v p : keeps_adj (parent_set m v p).
Proof.
  intros s. unfold parent_set.
  destruct (setitem2 (st_parent s) m v p); reflexivity.
Qed.

Lemma keeps_adj_alloc_tables n : keeps_adj (alloc_tables n).
Proof. intros s. reflexivity. Qed.

Create HintDb keeps discriminated.
#[local] Hint Resolve keeps_adj_ret keeps_adj_dp_get keeps_adj_parent_get
  keeps_adj_adj_get keeps_adj_dp_set keeps_adj_parent_set
  keeps_adj_alloc_tables : keeps.

Lemma keeps_adj_base_case v : keeps_adj (base_case v).
Proof. unfold base_case. apply keeps_adj_bind; auto with keeps. Qed.

Lemma keeps_adj_try_extend mask u v : keeps_adj (try_extend mask u v).
Proof.
  unfold try_extend. apply keeps_adj_bind.
  - destruct (Z.land mask (Z.shiftl 1 v) =? 0); auto with keeps.
    apply keeps_adj_bind; auto with keeps.
  - intros [|]; auto with keeps.
    apply keeps_adj_bind; auto with keeps.
    intros [|]; simpl; auto with keeps.
    apply keeps_adj_bind; auto with keeps.
Qed.

Lemma keeps_adj_extend_from n mask u : keeps_adj (extend_from n mask u).
Proof.
  unfold extend_from. apply keeps_adj_bind; auto with keeps.
  intros [|]; auto with keeps.
  apply keeps_adj_for_each. intros v. apply keeps_adj_try_extend.
Qed.

Lemma keeps_adj_process_mask n mask : keeps_adj (process_mask n mask).
Proof.
  unfold process_mask. apply keeps_adj_for_each.
  intros u. apply keeps_adj_extend_from.
Qed.

Lemma keeps_adj_reconstruct fuel :
  forall cur_mask cur_v path, keeps_adj (reconstruct fuel cur_mask cur_v path).
Proof.
  induction fuel as [|fuel IH]; intros cur_mask cur_v path; simpl;
    destruct (cur_v =? -1); auto with keeps.
  - intros s. reflexivity.
  - apply keeps_adj_bind; auto with keeps.
    intros prev. destruct (prev =? -1); auto with keeps.
Qed.

Lemma keeps_adj_find_end fuel full_mask vs :
  keeps_adj (find_end fuel full_mask vs).
Proof.
  induction vs as [|v vs IH]; simpl; auto with keeps.
  apply keeps_adj_bind; auto with keeps.
  intros [|]; [|assumption].
  apply keeps_adj_bind; auto using keeps_adj_reconstruct with keeps.
Qed.

Lemma keeps_adj_body fuel : keeps_adj (find_hamiltonian_path_body fuel).
Proof.
  unfold find_hamiltonian_path_body. apply keeps_adj_bind.
  { intros s. reflexivity. }
  intros n. apply keeps_adj_bind; auto with keeps.
  intros _. apply keeps_adj_bind.
  { apply keeps_adj_for_each. intros v. apply keeps_adj_base_case. }
  intros _. apply keeps_adj_bind.
  { apply keeps_adj_for_each. intros m. apply keeps_adj_process_mask. }
  intros _. apply keeps_adj_find_end.
Qed.

(** The tables are allocated anew on entry: what the store held in their
    place does not matter. *)
Lemma find_hamiltonian_path_body_fresh fuel s :
  find_hamiltonian_path_body fuel s
  = find_hamiltonian_path_body fuel (enter (st_adj s)).
Proof. reflexivity. Qed.

(** ** The iteration budget *)

Lemma settles_refl {A} (c : M A) : settles c c.
Proof. intros s s' o H _. exact H. Qed.

Lemma settles_bind {A B} (c1 c2 : M A) (k1 k2 : A -> M B) :
  settles c1 c2 -> (forall a, settles (k1 a) (k2 a)) ->
  settles (bind c1 k1) (bind c2 k2).
Proof.
  intros Hc Hk s s' o. unfold bind.
  destruct (c1 s) as [s1 o1] eqn:E1. destruct o1 as [a|e|].
  - rewrite (Hc s s1 (Ok a) E1) by discriminate. apply Hk.
  - rewrite (Hc s s1 (Raise e) E1) by discriminate. auto.
  - intros [= <- <-] Hne. contradiction.
Qed.

Lemma reconstruct_settles (fuel fuel' : nat) :
  (fuel <= fuel')%nat ->
  forall cur_mask cur_v path,
    settles (reconstruct fuel cur_mask cur_v path)
            (reconstruct fuel' cur_mask cur_v path).
Proof.
  revert fuel'. induction fuel as [|fuel IH]; intros fuel' Hle m v path.
  - destruct fuel'; simpl; destruct (v =? -1); try apply settles_refl;
      intros s s' o [= <- <-] Hne; contradiction.
  - destruct fuel' as [|fuel']; [lia|]. simpl.
    destruct (v =? -1); [apply settles_refl|].
    apply settles_bind; [apply settles_refl|].
    intros prev. destruct (prev =? -1); [apply settles_refl|].
    apply IH. lia.
Qed.

Lemma find_end_settles (fuel fuel' : nat) full_mask vs :
  (fuel <= fuel')%nat ->
  settles (find_end fuel full_mask vs) (find_end fuel' full_mask vs).
Proof.
  intros Hle. induction vs as [|v vs IH]; simpl; [apply settles_refl|].
  apply settles_bind; [apply settles_refl|].
  intros [|]; [|assumption].
  apply settles_bind; [|intros; apply settles_refl].
  apply reconstruct_settles. assumption.
Qed.

Lemma find_hamiltonian_path_body_settles (fuel fuel' : nat) :
  (fuel <= fuel')%nat ->
  settles (find_hamiltonian_path_body fuel) (find_hamiltonian_path_body fuel').
Proof.
  intros Hle. unfold find_hamiltonian_path_body.
  repeat (apply settles_bind; [apply settles_refl|intros ?]).
  apply find_end_settles. assumption.
Qed.

(** A result obtained within some budget is the result within any larger
    one. *)
Lemma find_hamiltonian_path_fuel (fuel fuel' : nat) adj r :
  (fuel <= fuel')%nat ->
  find_hamiltonian_path fuel adj = Ok r ->
  find_hamiltonian_path fuel' adj = Ok r.
Proof.
  intros Hle. unfold find_hamiltonian_path.
  destruct (find_hamiltonian_path_body fuel (enter adj)) as [s' o] eqn:E.
  simpl. intros ->.
  rewrite (find_hamiltonian_path_body_settles fuel fuel' Hle _ _ _ E)
    by discriminate.
  reflexivity.
Qed.

(** ** Stretches of the main loop *)

Section Segments.
Variable adj : matrix.
Hypothesis Hsquare : square adj.
Abbreviation n := (py_len adj).

Lemma extend_from_grows s mask u :
  shape adj s -> 0 <= mask < 2 ^ n -> 0 <= u < n ->
  exists s', extend_from n mask u s = (s', Ok tt) /\ shape adj s'
             /\ grows n mask s s'.
Proof.
  intros Hs Hm Hu. unfold extend_from.
  erewrite bind_ok by (eapply dp_get_spec; eassumption).
  destruct (dpv s mask u).
  2:{ exists s. split; [reflexivity|]. split; [assumption|apply grows_refl]. }
  destruct (for_each_spec (shape adj) (grows n mask) (fun _ _ => True)
              (try_extend mask u) (range n)) with (s := s)
    as (s' & Hrun & Hs' & Hg & _); eauto using grows_refl, grows_trans.
  intros v a Hv Ha. apply range_In in Hv.
  destruct (try_extend_spec adj Hsquare a mask u v Ha Hm Hu Hv)
    as (b & Hrun & Hb & _).
  exists b. split; [assumption|]. split; [assumption|].
  split; [|exact I].
  exact (try_extend_grows adj Hsquare a b mask u v Ha Hm Hu Hv Hrun).
Qed.

Lemma process_mask_grows s mask :
  shape adj s -> 0 <= mask < 2 ^ n ->
  exists s', process_mask n mask s = (s', Ok tt) /\ shape adj s'
             /\ grows n mask s s'.
Proof.
  intros Hs Hm. unfold process_mask.
  destruct (for_each_spec (shape adj) (grows n mask) (fun _ _ => True)
              (extend_from n mask) (range n)) with (s := s)
    as (s' & Hrun & Hs' & Hg & _); eauto using grows_refl, grows_trans.
  intros u a Hu Ha. apply range_In in Hu.
  destruct (extend_from_grows a mask u Ha Hm Hu) as (b & Hrun & Hb & Hg).
  exists b. auto.
Qed.

Lemma masks_grows s masks :
  shape adj s -> Forall (fun mask => 0 <= mask < 2 ^ n) masks ->
  exists s', for_each masks (process_mask n) s = (s', Ok tt)
             /\ shape adj s' /\ grows n (-1) s s'.
Proof.
  intros Hs Hmasks.
  destruct (for_each_spec (shape adj) (grows n (-1)) (fun _ _ => True)
              (process_mask n) masks) with (s := s)
    as (s' & Hrun & Hs' & Hg & _); eauto using grows_refl, grows_trans.
  intros m a Hm Ha.
  rewrite Forall_forall in Hmasks.
  pose proof (Hmasks m (proj2 (list_elem_of_In _ _) Hm)) as Hrange.
  destruct (process_mask_grows a m Ha Hrange) as (b & Hrun & Hb & Hg).
  exists b. split; [assumption|]. split; [assumption|].
  split; [|exact I]. eapply grows_weaken; [|exact Hg]. lia.
Qed.

Lemma run_segment_grows s s' :
  shape adj s -> run_segment adj s s' -> shape adj s' /\ write_once n s s'.
Proof.
  intros Hs [mask u v Hm Hu Hv Hrun|mask u Hm Hu Hrun|mask Hm Hrun
            |masks Hmasks Hrun].
  - destruct (try_extend_spec adj Hsquare s mask u v Hs Hm Hu Hv)
      as (b & Hrun' & Hb & _).
    pose proof (try_extend_grows adj Hsquare s b mask u v Hs Hm Hu Hv Hrun')
      as Hg.
    rewrite Hrun in Hrun'. injection Hrun' as <-. split; [assumption|apply Hg].
  - destruct (extend_from_grows s mask u Hs Hm Hu) as (b & Hrun' & Hb & Hg).
    rewrite Hrun in Hrun'. injection Hrun' as <-. split; [assumption|apply Hg].
  - destruct (process_mask_grows s mask Hs Hm) as (b & Hrun' & Hb & Hg).
    rewrite Hrun in Hrun'. injection Hrun' as <-. split; [assumption|apply Hg].
  - destruct (masks_grows s masks Hs Hmasks) as (b & Hrun' & Hb & Hg).
    rewrite Hrun in Hrun'. injection Hrun' as <-. split; [assumption|apply Hg].
Qed.

(** The main loop of a call starts in such a store. *)
Lemma main_loop_entry_shape :
  exists s, (alloc_tables n ;; for_each (range n) base_case) (enter adj)
            = (s, Ok tt) /\ shape adj s.
Proof.
  destruct (alloc_tables_spec adj (enter adj) eq_refl)
    as (s0 & Hrun0 & Hs0 & Hfresh).
  assert (Hsound0 : sound adj s0).
  { intros m v Hm Hv Htrue. rewrite (proj1 (Hfresh m v Hm Hv)) in Htrue.
    discriminate. }
  destruct (base_loop_spec adj s0 Hs0 Hsound0) as (s1 & Hrun1 & [Hs1 _] & _).
  exists s1. split; [|assumption].
  erewrite bind_ok by exact Hrun0. exact Hrun1.
Qed.

(** The first step that reaches a cell records itself as the parent. *)
Lemma try_extend_first s s' mask u v :
  shape adj s -> 0 <= mask < 2 ^ n -> 0 <= u < n -> 0 <= v < n ->
  try_extend mask u v s = (s', Ok tt) ->
  Z.testbit mask v = false -> has_edge adj u v = true ->
  dpv s (Z.lor mask (2 ^ v)) v = false ->
  dpv s' (Z.lor mask (2 ^ v)) v = true
  /\ parv s' (Z.lor mask (2 ^ v)) v = u.
Proof.
  intros Hs Hm Hu Hv Hrun Hb He Hd.
  destruct (try_extend_spec adj Hsquare s mask u v Hs Hm Hu Hv)
    as (s1 & Hrun1 & _ & Hc).
  rewrite Hrun in Hrun1. injection Hrun1 as <-.
  rewrite Hb, He, Hd in Hc. simpl in Hc.
  destruct Hc as (H1 & H2 & _). auto.
Qed.
End Segments.

(** ** Hamiltonian paths, and the exhaustive search of the specification *)

Lemma exhaustive_search_spec adj :
  exhaustive_search adj = true <-> exists p, hamiltonian adj p.
Proof.
  unfold exhaustive_search, hamiltonian. rewrite existsb_exists. split.
  - intros (p & Hin & Hok). exists p. split.
    + apply list_elem_of_In, permutations_Permutation in Hin.
      symmetry. exact Hin.
    + apply consecutive_ok_lookup. assumption.
  - intros (p & Hperm & Hok). exists p. split.
    + apply list_elem_of_In, permutations_Permutation. symmetry. exact Hperm.
    + apply consecutive_ok_lookup. assumption.
Qed.

Lemma hpath_hamiltonian adj v l :
  hpath adj (2 ^ py_len adj - 1) v l -> adj <> [] /\ hamiltonian adj (rev l).
Proof.
  intros Hp. split.
  - pose proof (hpath_full_length adj v l Hp) as Hlen.
    destruct (hpath_head _ _ _ _ Hp) as [r ->]. intros ->. discriminate.
  - split.
    + rewrite <- (hpath_full adj v l Hp). symmetry. apply Permutation_rev.
    + apply consecutive_ok_lookup. eapply hpath_walk. eassumption.
Qed.

Lemma hamiltonian_hpath adj p :
  adj <> [] -> hamiltonian adj p ->
  exists v l, hpath adj (2 ^ py_len adj - 1) v l.
Proof.
  intros Hne [Hperm Hok].
  assert (Hin : forall i, In i (rev p) <-> 0 <= i < py_len adj).
  { intros i. rewrite <- in_rev, <- range_In. split; apply Permutation_in;
      [assumption | symmetry; assumption]. }
  destruct (rev p) as [|v r] eqn:Hrev.
  { exfalso. apply Hne. apply Permutation_length in Hperm.
    apply (f_equal (@length Z)) in Hrev. rewrite length_rev in Hrev.
    unfold range in Hperm. rewrite length_map, length_seq in Hperm.
    unfold py_len in Hperm. destruct adj; [reflexivity|].
    simpl in *. lia. }
  destruct (walk_hpath adj v r) as [m Hp].
  - rewrite <- Hrev, <- (Permutation_rev p), Hperm. apply range_NoDup.
  - intros i. apply Hin.
  - rewrite <- Hrev, rev_involutive. apply consecutive_ok_lookup. assumption.
  - exists v, (v :: r).
    rewrite <- (hpath_mask_unique adj m v (v :: r) Hp Hin). assumption.
Qed.

(** ** The properties of the specification *)

Lemma has_edge_true adj a b :
  has_edge adj a b = true -> exists x, getitem2 adj a b = Ok x /\ x <> 0.
Proof.
  unfold has_edge, truthy. destruct (getitem2 adj a b) as [x| |];
    try discriminate.
  intros H. exists x. split; [reflexivity|].
  destruct (Z.eqb_spec x 0); [discriminate|assumption].
Qed.

(** C1. On a square matrix, when the call returns true the path has
    exactly n elements, every vertex index 0..n-1 occurs in it exactly
    once, and every consecutive pair of it is a nonzero entry of the
    matrix; when it returns false the path is empty. So no partial path is
    ever returned. *)
Theorem find_hamiltonian_path_valid
    (adj : matrix) (fuel : nat) (existence : bool) (path : list Z) :
  square adj ->
  find_hamiltonian_path fuel adj = Ok (existence, path) ->
  (existence = true ->
     length path = length adj
     /\ (forall v, 0 <= v < py_len adj ->
           count_occ Z.eq_dec path v = 1%nat)
     /\ (forall (i : nat) a b,
           path !! i = Some a -> path !! S i = Some b ->
           exists x, getitem2 adj a b = Ok x /\ x <> 0))
  /\ (existence = false -> path = []).
Proof.
  intros Hsq Hrun.
  destruct (find_hamiltonian_path_outcome adj fuel Hsq)
    as [[_ Hres]|(v & l & Hp & Hres)]; rewrite Hres in Hrun.
  { injection Hrun as <- <-. split; [discriminate|reflexivity]. }
  destruct (length l <=? fuel)%nat; [|discriminate].
  injection Hrun as <- <-. split; [|discriminate]. intros _.
  destruct (hpath_hamiltonian adj v l Hp) as [_ [Hperm Hedges]].
  split; [|split].
  - rewrite length_rev. eapply hpath_full_length. eassumption.
  - intros w Hw. apply List.NoDup_count_occ'.
    + apply NoDup_ListNoDup. rewrite Hperm. apply range_NoDup.
    + apply (Permutation_in w (Permutation_sym Hperm)), range_In. assumption.
  - intros i a b Ha Hb. apply has_edge_true. eapply Hedges; eassumption.
Qed.

Lemma find_hamiltonian_path_valid_witness :
  square chain4
  /\ find_hamiltonian_path 4 chain4 = Ok (true, [0;1;2;3])
  /\ length [0;1;2;3] = length chain4
  /\ (forall v, 0 <= v < 4 -> count_occ Z.eq_dec [0;1;2;3] v = 1%nat).
Proof.
  assert (Hsq : square chain4) by (repeat constructor).
  assert (Hrun : find_hamiltonian_path 4 chain4 = Ok (true, [0;1;2;3]))
    by (vm_compute; reflexivity).
  destruct (find_hamiltonian_path_valid chain4 4 true [0;1;2;3] Hsq Hrun)
    as [Htrue _].
  destruct (Htrue eq_refl) as (Hlen & Hcount & _).
  repeat split; assumption.
Defined.

(** C2, as the specification states it, fails on the empty matrix: the
    call answers false although the exhaustive search succeeds, on the
    empty ordering of no vertices. *)
Lemma empty_graph_verdict_differs :
  square []
  /\ find_hamiltonian_path 0 [] = Ok (false, [])
  /\ exhaustive_search [] = true
  /\ hamiltonian [] [].
Proof.
  split; [constructor|]. split; [reflexivity|]. split; [reflexivity|].
  split; [reflexivity|]. intros i a b H. discriminate.
Qed.

(** C2, amended. On a square matrix, when the call returns false the path
    is empty; it returns true exactly when the matrix is not empty and some
    ordering of all the vertices has an edge between every consecutive
    pair; so on a matrix that is not empty the verdict is that of the
    exhaustive search over the permutations. *)
Theorem find_hamiltonian_path_verdict
    (adj : matrix) (fuel : nat) (existence : bool) (path : list Z) :
  square adj ->
  find_hamiltonian_path fuel adj = Ok (existence, path) ->
  (existence = false -> path = [])
  /\ (existence = true <-> adj <> [] /\ exists p, hamiltonian adj p)
  /\ (adj <> [] -> existence = exhaustive_search adj).
Proof.
  intros Hsq Hrun.
  assert (Hiff : existence = true <-> adj <> [] /\ exists p, hamiltonian adj p).
  { destruct (find_hamiltonian_path_outcome adj fuel Hsq)
      as [[Hnone Hres]|(v & l & Hp & Hres)]; rewrite Hres in Hrun.
    - injection Hrun as <- <-. split; [discriminate|].
      intros [Hne [p Hham]].
      destruct (hamiltonian_hpath adj p Hne Hham) as (v & l & Hp).
      destruct (Hnone v l Hp).
    - destruct (length l <=? fuel)%nat; [|discriminate].
      injection Hrun as <- <-. split; [|reflexivity]. intros _.
      destruct (hpath_hamiltonian adj v l Hp) as [Hne Hham]. eauto. }
  split; [|split; [exact Hiff|]].
  - destruct (find_hamiltonian_path_outcome adj fuel Hsq)
      as [[_ Hres]|(v & l & _ & Hres)]; rewrite Hres in Hrun.
    + injection Hrun as <- <-. reflexivity.
    + destruct (length l <=? fuel)%nat; [|discriminate].
      injection Hrun as <- <-. discriminate.
  - intros Hne. pose proof (exhaustive_search_spec adj) as Hsearch.
    destruct existence, (exhaustive_search adj); try reflexivity.
    + destruct (proj1 Hiff eq_refl) as [_ Hex].
      apply Hsearch in Hex. discriminate.
    + assert (false = true) as Habs; [|discriminate].
      apply Hiff. split; [assumption|]. apply Hsearch. reflexivity.
Qed.

Lemma find_hamiltonian_path_verdict_witness :
  square triangle3
  /\ find_hamiltonian_path 3 triangle3 = Ok (true, [1;2;0])
  /\ (exists p, hamiltonian triangle3 p)
  /\ true = exhaustive_search triangle3.
Proof.
  assert (Hsq : square triangle3) by (repeat constructor).
  assert (Hrun : find_hamiltonian_path 3 triangle3 = Ok (true, [1;2;0]))
    by (vm_compute; reflexivity).
  destruct (find_hamiltonian_path_verdict triangle3 3 true [1;2;0] Hsq Hrun)
    as (_ & Hiff & Hsearch).
  split; [assumption|]. split; [assumption|]. split.
  - apply Hiff. reflexivity.
  - apply Hsearch. discriminate.
Defined.

(** C3, as the specification states it, fails: on the empty matrix the
    call does not return true. *)
Lemma empty_input_not_true :
  find_hamiltonian_path 0 [] <> Ok (true, []).
Proof. discriminate. Qed.

(** C3, amended. On the empty matrix the call returns false with an empty
    path: no vertex is there to end a path at, and the scan of lines 46-61
    has nothing to go through. *)
Theorem find_hamiltonian_path_empty (fuel : nat) :
  find_hamiltonian_path fuel [] = Ok (false, []).
Proof. reflexivity. Qed.

(** C4. On a 1x1 matrix the call returns true with the path [0], whatever
    the entry is (it is never read), as soon as the [while] loop may run
    its one iteration. *)
Theorem find_hamiltonian_path_single (x : Z) (fuel : nat) :
  find_hamiltonian_path (S fuel) [[x]] = Ok (true, [0]).
Proof. reflexivity. Qed.

(** C5. Two calls on equal matrices return equal results, the same
    verdict and the same path: whatever tables the stores they run in hold
    (such as those a previous call left), and whatever the budgets of their
    [while] loops. *)
Theorem find_hamiltonian_path_deterministic
    (s1 s2 : state) (fuel1 fuel2 : nat) (out1 out2 : bool * list Z) :
  st_adj s1 = st_adj s2 ->
  snd (find_hamiltonian_path_body fuel1 s1) = Ok out1 ->
  snd (find_hamiltonian_path_body fuel2 s2) = Ok out2 ->
  out1 = out2.
Proof.
  intros Hadj.
  rewrite (find_hamiltonian_path_body_fresh fuel1 s1).
  rewrite (find_hamiltonian_path_body_fresh fuel2 s2), <- Hadj.
  fold (find_hamiltonian_path fuel1 (st_adj s1)).
  fold (find_hamiltonian_path fuel2 (st_adj s1)).
  intros H1 H2.
  apply (find_hamiltonian_path_fuel fuel1 (Nat.max fuel1 fuel2)) in H1;
    [|lia].
  apply (find_hamiltonian_path_fuel fuel2 (Nat.max fuel1 fuel2)) in H2;
    [|lia].
  congruence.
Qed.

Lemma find_hamiltonian_path_deterministic_witness :
  st_adj (enter chain4)
  = st_adj (fst (find_hamiltonian_path_body 4 (enter chain4)))
  /\ snd (find_hamiltonian_path_body 4 (enter chain4))
     = Ok (true, [0;1;2;3])
  /\ snd (find_hamiltonian_path_body 5
            (fst (find_hamiltonian_path_body 4 (enter chain4))))
     = Ok (true, [0;1;2;3])
  /\ (true, [0;1;2;3]) = (true, [0;1;2;3]).
Proof.
  assert (Hadj : st_adj (enter chain4)
                 = st_adj (fst (find_hamiltonian_path_body 4 (enter chain4))))
    by (vm_compute; reflexivity).
  assert (H1 : snd (find_hamiltonian_path_body 4 (enter chain4))
               = Ok (true, [0;1;2;3]))
    by (vm_compute; reflexivity).
  assert (H2 : snd (find_hamiltonian_path_body 5
                      (fst (find_hamiltonian_path_body 4 (enter chain4))))
               = Ok (true, [0;1;2;3]))
    by (vm_compute; reflexivity).
  split; [exact Hadj|]. split; [exact H1|]. split; [exact H2|].
  exact (find_hamiltonian_path_deterministic _ _ 4 5 _ _ Hadj H1 H2).
Defined.

(** The second of two calls in a row does exactly what the first did. *)
Lemma find_hamiltonian_path_again (adj : matrix) (fuel : nat) :
  snd (find_hamiltonian_path_body fuel
         (fst (find_hamiltonian_path_body fuel (enter adj))))
  = find_hamiltonian_path fuel adj.
Proof.
  rewrite find_hamiltonian_path_body_fresh, keeps_adj_body. reflexivity.
Qed.

(** C6. Over any stretch of the main loop, run on tables of the shape the
    call allocates for a square matrix (the shape they have when the main
    loop starts, and keep), a cell of [dp] that is true stays true and
    keeps its parent, and a parent changes only in a cell that becomes
    true. The step that first reaches a cell records its own vertex as the
    parent, which by the above is never overwritten. *)
Theorem dp_parent_write_once (adj : matrix) (s s' : state) :
  square adj -> shape adj s -> run_segment adj s s' ->
  shape adj s'
  /\ write_once (py_len adj) s s'
  /\ forall mask u v,
       0 <= mask < 2 ^ py_len adj -> 0 <= u < py_len adj ->
       0 <= v < py_len adj ->
       try_extend mask u v s = (s', Ok tt) ->
       Z.testbit mask v = false -> has_edge adj u v = true ->
       dpv s (Z.lor mask (2 ^ v)) v = false ->
       dpv s' (Z.lor mask (2 ^ v)) v = true
       /\ parv s' (Z.lor mask (2 ^ v)) v = u.
Proof.
  intros Hsq Hs Hseg.
  destruct (run_segment_grows adj Hsq s s' Hs Hseg) as [Hs' Hwo].
  split; [assumption|]. split; [assumption|].
  intros mask u v. apply try_extend_first; assumption.
Qed.

Lemma dp_parent_write_once_witness :
  shape edge2 (fst (try_extend 1 0 1 edge2_based))
  /\ write_once 2 edge2_based (fst (try_extend 1 0 1 edge2_based))
  /\ dpv (fst (try_extend 1 0 1 edge2_based)) 3 1 = true
  /\ parv (fst (try_extend 1 0 1 edge2_based)) 3 1 = 0.
Proof.
  assert (Hsq : square edge2) by (repeat constructor).
  assert (Hs : shape edge2 edge2_based).
  { split; [reflexivity|]. split; (split; [reflexivity|repeat constructor]). }
  assert (Hrun : try_extend 1 0 1 edge2_based
                 = (fst (try_extend 1 0 1 edge2_based), Ok tt))
    by (vm_compute; reflexivity).
  assert (Hseg : run_segment edge2 edge2_based
                   (fst (try_extend 1 0 1 edge2_based))).
  { apply (seg_step edge2 _ _ 1 0 1); [| | |exact Hrun];
      change (py_len edge2) with 2; lia. }
  destruct (dp_parent_write_once edge2 edge2_based _ Hsq Hs Hseg)
    as (Hs' & Hwo & Hfirst).
  split; [exact Hs'|]. split; [exact Hwo|].
  apply (Hfirst 1 0 1); try (change (py_len edge2) with 2; lia);
    try (vm_compute; reflexivity).
Defined.

(** C7. On a square matrix the call returns a result: no read or write is
    out of range, and the [while] loop of the reconstruction stops within n
    iterations, one for each vertex. *)
Theorem find_hamiltonian_path_total (adj : matrix) (fuel : nat) :
  square adj -> (length adj <= fuel)%nat ->
  exists existence path,
    find_hamiltonian_path fuel adj = Ok (existence, path).
Proof.
  intros Hsq Hfuel.
  destruct (find_hamiltonian_path_outcome adj fuel Hsq)
    as [[_ Hres]|(v & l & Hp & Hres)]; rewrite Hres; [eauto|].
  rewrite (hpath_full_length adj v l Hp).
  destruct (Nat.leb_spec (length adj) fuel); [eauto|lia].
Qed.

Lemma find_hamiltonian_path_total_witness :
  exists existence path,
    find_hamiltonian_path 3 triangle3 = Ok (existence, path).
Proof.
  apply find_hamiltonian_path_total.
  - repeat constructor.
  - simpl. lia.
Defined.

(** C8. [run] takes the solver parameters and the extra arguments, of
    whatever kind, and returns what it returns without them. *)
Theorem run_ignores_parameters {P E P' E' : Type} (fuel : nat)
    (input_data : gmap string matrix)
    (solver_params : option P) (extra_arguments : option E) :
  run fuel input_data solver_params extra_arguments
  = run fuel input_data (@None P') (@None E').
Proof. reflexivity. Qed.

(** C9. The call leaves the matrix as it was, however it ends, and does
    what it would do in a store that holds nothing but the matrix: nothing
    a previous call left is used. *)
Theorem find_hamiltonian_path_no_side_effect (fuel : nat) (s : state) :
  st_adj (fst (find_hamiltonian_path_body fuel s)) = st_adj s
  /\ find_hamiltonian_path_body fuel s
     = find_hamiltonian_path_body fuel (enter (st_adj s)).
Proof.
  split; [apply keeps_adj_body | apply find_hamiltonian_path_body_fresh].
Qed.

(** C10. Without the key "adjacency_matrix", [run] raises [KeyError] and
    returns no response. *)
Theorem run_missing_key {P E : Type} (fuel : nat)
    (input_data : gmap string matrix)
    (solver_params : option P) (extra_arguments : option E) :
  input_data !! "adjacency_matrix"%string = None ->
  run fuel input_data solver_params extra_arguments = Raise KeyError.
Proof. intros H. unfold run. rewrite H. reflexivity. Qed.

Lemma run_missing_key_witness :
  run 1 ({[ "matrix"%string := edge2 ]} : gmap string matrix)
      (@None unit) (@None unit)
  = Raise KeyError.
Proof.
  apply run_missing_key. vm_compute. reflexivity.
Defined.

(** * Further properties *)

(** ** The exceptions of the function *)

Lemma getitem_raises {A} (l : list A) i e :
  getitem l i = Raise e -> e = IndexError.
Proof.
  unfold getitem. destruct (py_index l i) as [k|]; [destruct (l !! k)|];
    congruence.
Qed.

Lemma getitem_no_fuel {A} (l : list A) i : getitem l i <> OutOfFuel.
Proof.
  unfold getitem. destruct (py_index l i) as [k|]; [destruct (l !! k)|];
    discriminate.
Qed.

Lemma setitem_raises {A} (l : list A) i x e :
  setitem l i x = Raise e -> e = IndexError.
Proof. unfold setitem. destruct (py_index l i); congruence. Qed.

Lemma setitem_no_fuel {A} (l : list A) i x : setitem l i x <> OutOfFuel.
Proof. unfold setitem. destruct (py_index l i); discriminate. Qed.

Lemma getitem2_raises {A} (t : list (list A)) i j e :
  getitem2 t i j = Raise e -> e = IndexError.
Proof.
  unfold getitem2. destruct (getitem t i) as [row|e'|] eqn:E.
  - apply getitem_raises.
  - intros [= <-]. eapply getitem_raises. eassumption.
  - discriminate.
Qed.

Lemma getitem2_no_fuel {A} (t : list (list A)) i j :
  getitem2 t i j <> OutOfFuel.
Proof.
  unfold getitem2. destruct (getitem t i) as [row|e'|] eqn:E.
  - apply getitem_no_fuel.
  - discriminate.
  - destruct (getitem_no_fuel _ _ E).
Qed.

Lemma setitem2_raises {A} (t : list (list A)) i j x e :
  setitem2 t i j x = Raise e -> e = IndexError.
Proof.
  unfold setitem2. destruct (getitem t i) as [row|e'|] eqn:E.
  - destruct (setitem row j x) as [row'|e'|] eqn:E'.
    + apply setitem_raises.
    + intros [= <-]. eapply setitem_raises. eassumption.
    + discriminate.
  - intros [= <-]. eapply getitem_raises. eassumption.
  - discriminate.
Qed.

Lemma setitem2_no_fuel {A} (t : list (list A)) i j x :
  setitem2 t i j x <> OutOfFuel.
Proof.
  unfold setitem2. destruct (getitem t i) as [row|e'|] eqn:E.
  - destruct (setitem row j x) as [row'|e'|] eqn:E'.
    + apply setitem_no_fuel.
    + discriminate.
    + destruct (setitem_no_fuel _ _ _ E').
  - discriminate.
  - destruct (getitem_no_fuel _ _ E).
Qed.

Lemma raises_only_ret {A} b (a : A) : raises_only b (ret a).
Proof. intros s t o [= <- <-]. exact I. Qed.

Lemma raises_only_bind {A B} b (c : M A) (k : A -> M B) :
  raises_only b c -> (forall a, raises_only b (k a)) ->
  raises_only b (bind c k).
Proof.
  intros Hc Hk s t o. unfold bind.
  destruct (c s) as [s1 [a|e|]] eqn:E.
  - apply Hk.
  - intros [= <- <-]. exact (Hc _ _ _ E).
  - intros [= <- <-]. exact (Hc _ _ _ E).
Qed.

Lemma raises_only_for_each {X} b (l : list X) (body : X -> M unit) :
  (forall x, raises_only b (body x)) -> raises_only b (for_each l body).
Proof.
  intros Hbody. induction l as [|x l IH]; simpl.
  - apply raises_only_ret.
  - apply raises_only_bind; auto.
Qed.

Lemma raises_only_fuel {A} (c : M A) :
  raises_only false c -> raises_only true c.
Proof.
  intros Hc s t o E. specialize (Hc s t o E).
  destruct o; auto.
Qed.

Lemma raises_only_read {A} b (f : state -> outcome A) :
  (forall s e, f s = Raise e -> e = IndexError) ->
  (forall s, f s <> OutOfFuel) ->
  raises_only b (fun s => (s, f s)).
Proof.
  intros Hr Hf s t o [= <- <-]. destruct (f s) eqn:E; auto.
  - eapply Hr. eassumption.
  - destruct (Hf s E).
Qed.

Lemma raises_only_adj_get b u v : raises_only b (adj_get u v).
Proof.
  apply raises_only_read; intros s; [apply getitem2_raises|apply getitem2_no_fuel].
Qed.

Lemma raises_only_dp_get b m v : raises_only b (dp_get m v).
Proof.
  apply raises_only_read; intros s; [apply getitem2_raises|apply getitem2_no_fuel].
Qed.

Lemma raises_only_parent_get b m v : raises_only b (parent_get m v).
Proof.
  apply raises_only_read; intros s; [apply getitem2_raises|apply getitem2_no_fuel].
Qed.

Lemma raises_only_dp_set b m v x : raises_only b (dp_set m v x).
Proof.
  intros s t o. unfold dp_set.
  destruct (setitem2 (st_dp s) m v x) eqn:E; intros [= <- <-]; auto.
  - eapply setitem2_raises. eassumption.
  - destruct (setitem2_no_fuel _ _ _ _ E).
Qed.

Lemma raises_only_parent_set b m v p : raises_only b (parent_set m v p).
Proof.
  intros s t o. unfold parent_set.
  destruct (setitem2 (st_parent s) m v p) eqn:E; intros [= <- <-]; auto.
  - eapply setitem2_raises. eassumption.
  - destruct (setitem2_no_fuel _ _ _ _ E).
Qed.

Create HintDb raises discriminated.
#[local] Hint Resolve raises_only_ret raises_only_adj_get raises_only_dp_get
  raises_only_parent_get raises_only_dp_set raises_only_parent_set : raises.

Lemma raises_only_base_case b v : raises_only b (base_case v).
Proof. unfold base_case. apply raises_only_bind; auto with raises. Qed.

Lemma raises_only_try_extend b mask u v : raises_only b (try_extend mask u v).
Proof.
  unfold try_extend. apply raises_only_bind.
  - destruct (Z.land mask (Z.shiftl 1 v) =? 0); auto with raises.
    apply raises_only_bind; auto with raises.
  - intros [|]; auto with raises.
    apply raises_only_bind; auto with raises.
    intros [|]; simpl; auto with raises.
    apply raises_only_bind; auto with raises.
Qed.

Lemma raises_only_extend_from b n mask u :
  raises_only b (extend_from n mask u).
Proof.
  unfold extend_from. apply raises_only_bind; auto with raises.
  intros [|]; auto with raises.
  apply raises_only_for_each. intros v. apply raises_only_try_extend.
Qed.

Lemma raises_only_process_mask b n mask :
  raises_only b (process_mask n mask).
Proof.
  unfold process_mask. apply raises_only_for_each.
  intros u. apply raises_only_extend_from.
Qed.

Lemma raises_only_reconstruct fuel :
  forall cur_mask cur_v path,
    raises_only true (reconstruct fuel cur_mask cur_v path).
Proof.
  induction fuel as [|fuel IH]; intros cur_mask cur_v path; simpl;
    destruct (cur_v =? -1); auto with raises.
  - intros s t o [= <- <-]. reflexivity.
  - apply raises_only_bind; auto with raises.
    intros prev. destruct (prev =? -1); auto with raises.
Qed.

Lemma raises_only_find_end fuel full_mask vs :
  raises_only true (find_end fuel full_mask vs).
Proof.
  induction vs as [|v vs IH]; simpl; auto with raises.
  apply raises_only_bind; auto with raises.
  intros [|]; [|assumption].
  apply raises_only_bind; auto using raises_only_reconstruct with raises.
Qed.

Lemma raises_only_body fuel :
  raises_only true (find_hamiltonian_path_body fuel).
Proof.
  unfold find_hamiltonian_path_body. apply raises_only_bind.
  { intros s t o [= <- <-]. exact I. }
  intros n. apply raises_only_bind.
  { intros s t o [= <- <-]. exact I. }
  intros _. apply raises_only_bind.
  { apply raises_only_for_each. intros v. apply raises_only_base_case. }
  intros _. apply raises_only_bind.
  { apply raises_only_for_each. intros m. apply raises_only_process_mask. }
  intros _. apply raises_only_find_end.
Qed.

Lemma find_hamiltonian_path_raises fuel adj e :
  find_hamiltonian_path fuel adj = Raise e -> e = IndexError.
Proof.
  unfold find_hamiltonian_path.
  destruct (find_hamiltonian_path_body fuel (enter adj)) as [t o] eqn:E.
  simpl. intros ->. exact (raises_only_body fuel _ _ _ E).
Qed.

(** X1. [run] raises [KeyError] exactly when the key "adjacency_matrix"
    is missing: nothing in [find_hamiltonian_path] raises it, whatever
    the matrix. *)
Theorem run_key_error_iff {P E : Type} (fuel : nat)
    (input_data : gmap string matrix)
    (solver_params : option P) (extra_arguments : option E) :
  run fuel input_data solver_params extra_arguments = Raise KeyError
  <-> input_data !! "adjacency_matrix"%string = None.
Proof.
  unfold run.
  destruct (input_data !! "adjacency_matrix"%string) as [adj|]; [|tauto].
  split; [|discriminate].
  destruct (find_hamiltonian_path fuel adj) as [[e p]|e|] eqn:Hcall;
    try discriminate.
  intros [= ->]. apply find_hamiltonian_path_raises in Hcall. discriminate.
Qed.

(** ** The function on any matrix, square or not *)

Lemma bind_eq {A B} (c : M A) (k : A -> M B) s t o :
  c s = (t, o) ->
  bind c k s = match o with
               | Ok a => k a t
               | Raise e => (t, Raise e)
               | OutOfFuel => (t, OutOfFuel)
               end.
Proof. intros H. unfold bind. rewrite H. reflexivity. Qed.

(** A loop that ends well ran every iteration well, each from a store
    that satisfies the invariant. *)
Lemma for_each_ok {X} (I : state -> Prop) (body : X -> M unit) (l : list X) :
  (forall x s t, In x l -> I s -> body x s = (t, Ok tt) -> I t) ->
  forall s t, I s -> for_each l body s = (t, Ok tt) ->
    I t /\ forall x, In x l -> exists a b, I a /\ body x a = (b, Ok tt).
Proof.
  induction l as [|x l IH]; intros Hbody s t HI; simpl.
  - intros [= <-]. split; [assumption|]. intros x [].
  - unfold bind. destruct (body x s) as [s1 [[]|e|]] eqn:E1; try discriminate.
    intros Hrest.
    pose proof (Hbody x s s1 (or_introl eq_refl) HI E1) as HI1.
    destruct (IH (fun y a b Hy => Hbody y a b (or_intror Hy)) s1 t HI1 Hrest)
      as [HIt Heach].
    split; [assumption|]. intros y [<-|Hy]; eauto.
Qed.

Lemma transfers_ret {A} adj' (a : A) s : transfers adj' (ret a) s.
Proof. reflexivity. Qed.

Lemma transfers_bind {A B} adj' (c : M A) (k : A -> M B) s :
  transfers adj' c s ->
  (forall a t, c s = (t, Ok a) -> transfers adj' (k a) t) ->
  transfers adj' (bind c k) s.
Proof.
  unfold transfers, bind. intros Hc Hk. rewrite Hc.
  destruct (c s) as [t [a|e|]]; simpl; try reflexivity.
  apply Hk. reflexivity.
Qed.

Lemma for_each_transfers {X} adj' (I : state -> Prop) (body : X -> M unit)
    (l : list X) :
  (forall x s t, In x l -> I s -> body x s = (t, Ok tt) -> I t) ->
  (forall x s, In x l -> I s -> transfers adj' (body x) s) ->
  forall s, I s -> transfers adj' (for_each l body) s.
Proof.
  induction l as [|x l IH]; intros Hkeep Hbody s HI; simpl.
  - apply transfers_ret.
  - apply transfers_bind; [apply Hbody; [left; reflexivity|assumption]|].
    intros [] t Hrun. apply IH.
    + intros y a b Hy. apply Hkeep. right. assumption.
    + intros y a Hy. apply Hbody. right. assumption.
    + eapply Hkeep; [left; reflexivity|eassumption|eassumption].
Qed.

Lemma transfers_dp_get adj' m v s : transfers adj' (dp_get m v) s.
Proof. reflexivity. Qed.

Lemma transfers_parent_get adj' m v s : transfers adj' (parent_get m v) s.
Proof. reflexivity. Qed.

Lemma transfers_dp_set adj' m v b s : transfers adj' (dp_set m v b) s.
Proof.
  unfold transfers, dp_set. simpl.
  destruct (setitem2 (st_dp s) m v b); reflexivity.
Qed.

Lemma transfers_parent_set adj' m v p s :
  transfers adj' (parent_set m v p) s.
Proof.
  unfold transfers, parent_set. simpl.
  destruct (setitem2 (st_parent s) m v p); reflexivity.
Qed.

Lemma transfers_record adj' m v p s :
  transfers adj' (dp_set m v true ;; parent_set m v p) s.
Proof.
  apply transfers_bind; [apply transfers_dp_set|].
  intros _ t _. apply transfers_parent_set.
Qed.

Lemma transfers_base_case adj' v s : transfers adj' (base_case v) s.
Proof. apply transfers_record. Qed.

Lemma transfers_reconstruct adj' fuel :
  forall cur_mask cur_v path s,
    transfers adj' (reconstruct fuel cur_mask cur_v path) s.
Proof.
  induction fuel as [|fuel IH]; intros cur_mask cur_v path s; simpl;
    destruct (cur_v =? -1); try apply transfers_ret.
  - reflexivity.
  - apply transfers_bind; [apply transfers_parent_get|].
    intros prev t _. destruct (prev =? -1); [apply transfers_ret|apply IH].
Qed.

Lemma transfers_find_end adj' fuel full_mask vs s :
  transfers adj' (find_end fuel full_mask vs) s.
Proof.
  revert s. induction vs as [|v vs IH]; intros s; simpl;
    [apply transfers_ret|].
  apply transfers_bind; [apply transfers_dp_get|].
  intros [|] t _; [|apply IH].
  apply transfers_bind; [apply transfers_reconstruct|].
  intros path t' _. apply transfers_ret.
Qed.

Section AnyMatrix.
Variable adj : matrix.
Abbreviation n := (py_len adj).

Lemma adj_read_spec s u v :
  st_adj s = adj ->
  (x <- adj_get u v ;; ret (truthy x)) s = (s, read adj u v).
Proof.
  intros Hadj. unfold bind, adj_get, read. rewrite Hadj.
  destruct (getitem2 adj u v); reflexivity.
Qed.

(** Lines 38-43, step by step, on tables of the right shape. *)
Lemma try_extend_gen s mask u v :
  shape adj s -> 0 <= mask < 2 ^ n -> 0 <= v < n ->
  try_extend mask u v s
  = if Z.testbit mask v then (s, Ok tt)
    else match read adj u v with
         | Ok true =>
             if dpv s (Z.lor mask (2 ^ v)) v then (s, Ok tt)
             else (dp_set (Z.lor mask (2 ^ v)) v true ;;
                   parent_set (Z.lor mask (2 ^ v)) v u) s
         | Ok false => (s, Ok tt)
         | Raise e => (s, Raise e)
         | OutOfFuel => (s, OutOfFuel)
         end.
Proof.
  intros Hs Hm Hv. unfold try_extend.
  rewrite shiftl_1_pow2, land_pow2_eqb by lia.
  destruct (Z.testbit mask v); simpl; [reflexivity|].
  rewrite (bind_eq _ _ _ _ _ (adj_read_spec s u v (proj1 Hs))).
  destruct (read adj u v) as [[|]|e|]; try reflexivity.
  pose proof (lor_pow2_bound n mask v Hm Hv) as Hnext.
  erewrite bind_ok by (eapply dp_get_spec; eassumption).
  destruct (dpv s (Z.lor mask (2 ^ v)) v); reflexivity.
Qed.

Lemma marked_bits s t m v p :
  bits_ok n s -> marked n m v p s t -> Z.testbit m v = true -> bits_ok n t.
Proof.
  intros Hbits (Hdp & _ & Hother) Hbit m' v' Hm' Hv' Htrue.
  destruct (Z.eq_dec m' m) as [->|Hne]; [destruct (Z.eq_dec v' v) as [->|Hnv]|].
  - assumption.
  - apply Hbits; try assumption.
    rewrite <- (proj1 (Hother m v' Hm' Hv' (or_intror Hnv))). assumption.
  - apply Hbits; try assumption.
    rewrite <- (proj1 (Hother m' v' Hm' Hv' (or_introl Hne))). assumption.
Qed.

Lemma marked_based s t m v p :
  based adj s -> shape adj t -> marked n m v p s t ->
  Z.testbit m v = true -> based adj t.
Proof.
  intros (Hs & Hbits & Hbase) Ht Hmk Hbit.
  split; [assumption|]. split; [eapply marked_bits; eassumption|].
  intros w Hw. apply (marked_dp_mono adj s t m v p Hmk); auto.
  split; [apply Z.pow_nonneg; lia|]. apply Z.pow_lt_mono_r; lia.
Qed.

Lemma try_extend_keeps s t mask u v :
  based adj s -> 0 <= mask < 2 ^ n -> 0 <= v < n ->
  try_extend mask u v s = (t, Ok tt) -> based adj t /\ dp_mono n s t.
Proof.
  intros Hb Hm Hv. rewrite (try_extend_gen s mask u v (proj1 Hb) Hm Hv).
  assert (Hsame : (s, Ok tt) = (t, Ok tt) -> based adj t /\ dp_mono n s t).
  { intros [= <-]. split; [assumption|]. intros m' v' _ _ H. exact H. }
  destruct (Z.testbit mask v) eqn:Hbit; [exact Hsame|].
  destruct (read adj u v) as [[|]|e|]; try exact Hsame; try discriminate.
  destruct (dpv s (Z.lor mask (2 ^ v)) v); [exact Hsame|].
  destruct (record_cell adj s (Z.lor mask (2 ^ v)) v u (proj1 Hb))
    as (s' & Hrun & Hs' & Hmk); [apply lor_pow2_bound; assumption|assumption|].
  rewrite Hrun. intros [= <-]. split.
  - eapply marked_based; try eassumption.
    rewrite testbit_lor_pow2, Z.eqb_refl by lia. apply orb_true_r.
  - eapply marked_dp_mono. eassumption.
Qed.

Lemma extend_from_keeps s t mask u :
  based adj s -> 0 <= mask < 2 ^ n -> 0 <= u < n ->
  extend_from n mask u s = (t, Ok tt) ->
  based adj t
  /\ (dpv s mask u = true ->
      forall v, 0 <= v < n ->
        exists a b, based adj a /\ try_extend mask u v a = (b, Ok tt)).
Proof.
  intros Hb Hm Hu. unfold extend_from.
  erewrite bind_ok by (eapply dp_get_spec; (apply Hb || assumption)).
  destruct (dpv s mask u) eqn:Hsrc.
  2:{ intros [= <-]. split; [assumption|discriminate]. }
  intros Hrun.
  destruct (for_each_ok (fun a => based adj a /\ dpv a mask u = true)
              (try_extend mask u) (range n)) with (s := s) (t := t)
    as [[Ht _] Heach]; auto.
  - intros v a b Hv [Ha Hsrca] Hstep. apply range_In in Hv.
    destruct (try_extend_keeps a b mask u v Ha Hm Hv Hstep) as [Hb' Hmono].
    split; [assumption|]. apply Hmono; assumption.
  - split; [assumption|]. intros _ v Hv.
    destruct (Heach v) as (a & b & [Ha _] & Hstep); [apply range_In; assumption|].
    eauto.
Qed.

Lemma process_mask_keeps s t mask :
  based adj s -> 0 <= mask < 2 ^ n ->
  process_mask n mask s = (t, Ok tt) ->
  based adj t
  /\ forall u, 0 <= u < n ->
       exists a b, based adj a /\ extend_from n mask u a = (b, Ok tt).
Proof.
  intros Hb Hm Hrun. unfold process_mask in Hrun.
  destruct (for_each_ok (based adj) (extend_from n mask) (range n))
    with (s := s) (t := t) as [Ht Heach]; auto.
  - intros u a b Hu Ha Hstep. apply range_In in Hu.
    apply (extend_from_keeps a b mask u Ha Hm Hu Hstep).
  - split; [assumption|]. intros u Hu. apply Heach, range_In. assumption.
Qed.

Lemma main_loop_keeps s t masks :
  based adj s -> (forall m, In m masks -> 0 <= m < 2 ^ n) ->
  for_each masks (process_mask n) s = (t, Ok tt) ->
  based adj t
  /\ forall m, In m masks ->
       exists a b, based adj a /\ process_mask n m a = (b, Ok tt).
Proof.
  intros Hb Hmasks Hrun.
  apply (for_each_ok (based adj) (process_mask n) masks) with (s := s);
    auto.
  intros m a b Hm Ha Hstep.
  apply (process_mask_keeps a b m Ha (Hmasks m Hm) Hstep).
Qed.

(** Lines 19-30 never fail: the tables are as long as the loops go. *)
Lemma base_spec s :
  st_adj s = adj ->
  exists s1, based adj s1 /\
    forall (B : Type) (k : M B),
      (alloc_tables n ;; for_each (range n) base_case ;; k) s = k s1.
Proof.
  intros Hadj.
  destruct (alloc_tables_spec adj s Hadj) as (s0 & Hrun0 & Hs0 & Hfresh).
  assert (Hsound0 : sound adj s0).
  { intros m v Hm Hv Htrue. rewrite (proj1 (Hfresh m v Hm Hv)) in Htrue.
    discriminate. }
  destruct (base_loop_spec adj s0 Hs0 Hsound0)
    as (s1 & Hrun1 & [Hs1 Hsound1] & Hbase).
  exists s1. split.
  - split; [assumption|]. split; [|assumption].
    intros m v Hm Hv Htrue. apply (Hsound1 m v Hm Hv Htrue).
  - intros B k. erewrite bind_ok by exact Hrun0.
    erewrite bind_ok by exact Hrun1. reflexivity.
Qed.
End AnyMatrix.

(** ** Two matrices that read the same *)

Section Transfer.
Variables adj adj' : matrix.
Hypothesis Hsame : same_readings adj adj'.
Abbreviation n := (py_len adj).

Lemma shape_with_adj s : shape adj s -> shape adj' (with_adj adj' s).
Proof.
  intros (_ & Hdp & Hpar). destruct Hsame as [Hlen _].
  split; [reflexivity|]. rewrite Hlen. split; assumption.
Qed.

Lemma try_extend_transfers s mask u v :
  based adj s -> 0 <= mask < 2 ^ n -> 0 <= u < n -> 0 <= v < n ->
  dpv s mask u = true -> transfers adj' (try_extend mask u v) s.
Proof.
  intros (Hs & Hbits & _) Hm Hu Hv Hsrc. destruct Hsame as [Hlen Hread].
  unfold transfers.
  rewrite (try_extend_gen adj' (with_adj adj' s) mask u v)
    by (try apply shape_with_adj; rewrite ?Hlen; assumption).
  rewrite (try_extend_gen adj s mask u v) by assumption.
  destruct (Z.testbit mask v) eqn:Hbit; [reflexivity|].
  assert (Huv : u <> v).
  { intros ->. rewrite (Hbits mask v Hm Hv Hsrc) in Hbit. discriminate. }
  rewrite (Hread u v Hu Hv Huv).
  destruct (read adj u v) as [[|]|e|]; try reflexivity.
  change (dpv (with_adj adj' s) (Z.lor mask (2 ^ v)) v)
    with (dpv s (Z.lor mask (2 ^ v)) v).
  destruct (dpv s (Z.lor mask (2 ^ v)) v); [reflexivity|].
  apply transfers_record.
Qed.

Lemma extend_from_transfers s mask u :
  based adj s -> 0 <= mask < 2 ^ n -> 0 <= u < n ->
  transfers adj' (extend_from n mask u) s.
Proof.
  intros Hb Hm Hu. unfold extend_from.
  apply transfers_bind; [apply transfers_dp_get|].
  intros b t Hrun.
  rewrite (dp_get_spec adj s mask u (proj1 Hb) Hm Hu) in Hrun.
  injection Hrun as <- <-.
  destruct (dpv s mask u) eqn:Hsrc; [|apply transfers_ret].
  apply (for_each_transfers adj'
           (fun a => based adj a /\ dpv a mask u = true)); auto.
  - intros v a b Hv [Ha Hsrca] Hstep. apply range_In in Hv.
    destruct (try_extend_keeps adj a b mask u v Ha Hm Hv Hstep) as [Hb' Hmono].
    split; [assumption|]. apply Hmono; assumption.
  - intros v a Hv [Ha Hsrca]. apply range_In in Hv.
    apply try_extend_transfers; assumption.
Qed.

Lemma process_mask_transfers s mask :
  based adj s -> 0 <= mask < 2 ^ n ->
  transfers adj' (process_mask n mask) s.
Proof.
  intros Hb Hm. unfold process_mask.
  apply (for_each_transfers adj' (based adj)); auto.
  - intros u a b Hu Ha Hstep. apply range_In in Hu.
    apply (extend_from_keeps adj a b mask u Ha Hm Hu Hstep).
  - intros u a Hu Ha. apply range_In in Hu.
    apply extend_from_transfers; assumption.
Qed.

Lemma body_transfers fuel s :
  st_adj s = adj -> transfers adj' (find_hamiltonian_path_body fuel) s.
Proof.
  intros Hadj. destruct Hsame as [Hlen _].
  unfold find_hamiltonian_path_body.
  apply transfers_bind.
  { unfold transfers, adj_len. simpl. rewrite Hlen, Hadj. reflexivity. }
  intros a t [= <- <-]. rewrite Hadj. cbv zeta.
  apply transfers_bind; [reflexivity|]. intros [] s0 Hrun0.
  apply transfers_bind.
  { apply (for_each_transfers adj' (fun _ => True)); auto.
    intros. apply transfers_base_case. }
  intros [] s1 Hrun1.
  assert (Hb : based adj s1).
  { destruct (base_spec adj s Hadj) as (s1' & Hb & Heq).
    specialize (Heq unit (ret tt)).
    erewrite bind_ok in Heq by exact Hrun0.
    erewrite bind_ok in Heq by exact Hrun1.
    injection Heq as <-. assumption. }
  apply transfers_bind; [|intros; apply transfers_find_end].
  apply (for_each_transfers adj' (based adj)); auto.
  - intros m a b Hm Ha Hstep. apply range_In in Hm.
    rewrite shiftl_1_pow2 in Hm.
    apply (process_mask_keeps adj a b m Ha Hm Hstep).
  - intros m a Hm Ha. apply range_In in Hm. rewrite shiftl_1_pow2 in Hm.
    apply process_mask_transfers; assumption.
Qed.

Lemma find_hamiltonian_path_transfers fuel :
  find_hamiltonian_path fuel adj' = find_hamiltonian_path fuel adj.
Proof.
  unfold find_hamiltonian_path.
  change (enter adj') with (with_adj adj' (enter adj)).
  rewrite (body_transfers fuel (enter adj) eq_refl). reflexivity.
Qed.
End Transfer.

(** ** Reading through [map] and [range] *)

Lemma lookup_map {A B} (f : A -> B) (l : list A) (i : nat) :
  map f l !! i = option_map f (l !! i).
Proof.
  revert i. induction l as [|x l IH]; intros [|i]; simpl; auto.
Qed.

Lemma getitem_map {A B} (f : A -> B) (l : list A) i :
  getitem (map f l) i
  = match getitem l i with
    | Ok x => Ok (f x)
    | Raise e => Raise e
    | OutOfFuel => OutOfFuel
    end.
Proof.
  unfold getitem.
  replace (py_index (map f l) i) with (py_index l i)
    by (unfold py_index, py_len; rewrite length_map; reflexivity).
  destruct (py_index l i) as [k|]; [|reflexivity].
  rewrite lookup_map. destruct (l !! k); reflexivity.
Qed.

Lemma getitem_range k i : 0 <= i < k -> getitem (range k) i = Ok i.
Proof.
  intros Hi. unfold getitem.
  rewrite py_index_in_range by (rewrite range_length; lia).
  unfold range. rewrite lookup_map, lookup_seq_lt by lia.
  simpl. f_equal. lia.
Qed.

Lemma read_as_zero_one adj u v : read (as_zero_one adj) u v = read adj u v.
Proof.
  unfold read, as_zero_one, getitem2. rewrite getitem_map.
  destruct (getitem adj u) as [row|e|]; try reflexivity.
  rewrite getitem_map. destruct (getitem row v) as [x|e|]; try reflexivity.
  unfold truthy. destruct (x =? 0); reflexivity.
Qed.

Lemma getitem2_squared adj u v :
  0 <= u < py_len adj -> 0 <= v < py_len adj ->
  getitem2 (squared adj) u v = Ok (cellv 0 adj u v).
Proof.
  intros Hu Hv. unfold squared, getitem2.
  rewrite getitem_map, getitem_range by assumption.
  rewrite getitem_map, getitem_range by assumption. reflexivity.
Qed.

Lemma squared_length adj : py_len (squared adj) = py_len adj.
Proof.
  unfold squared, py_len at 1. rewrite length_map.
  apply range_length, py_len_nonneg.
Qed.

Lemma squared_square adj : square (squared adj).
Proof.
  unfold square. rewrite squared_length. unfold squared.
  apply Forall_forall. intros row Hrow.
  apply list_elem_of_In, in_map_iff in Hrow as (u & <- & _).
  unfold py_len at 1. rewrite length_map.
  apply range_length, py_len_nonneg.
Qed.

Lemma off_diagonal_missing_true adj :
  off_diagonal_missing adj = true <->
  exists u v, 0 <= u < py_len adj /\ 0 <= v < py_len adj /\ u <> v
              /\ getitem2 adj u v = Raise IndexError.
Proof.
  unfold off_diagonal_missing. rewrite existsb_exists. split.
  - intros (u & Hu & Hex). apply existsb_exists in Hex as (v & Hv & Hc).
    apply range_In in Hu, Hv. apply andb_true_iff in Hc as [Hne Hmiss].
    exists u, v. split; [assumption|]. split; [assumption|]. split.
    + intros ->. rewrite Z.eqb_refl in Hne. discriminate.
    + destruct (getitem2 adj u v) as [x|e|] eqn:E; [discriminate| |].
      * apply getitem2_raises in E. subst. reflexivity.
      * destruct (getitem2_no_fuel _ _ _ E).
  - intros (u & v & Hu & Hv & Hne & Hmiss). exists u.
    split; [apply range_In; assumption|].
    apply existsb_exists. exists v. split; [apply range_In; assumption|].
    rewrite Hmiss. apply andb_true_iff. split; [|reflexivity].
    apply negb_true_iff, Z.eqb_neq. assumption.
Qed.

Lemma off_diagonal_present adj u v :
  off_diagonal_missing adj = false ->
  0 <= u < py_len adj -> 0 <= v < py_len adj -> u <> v ->
  exists x, getitem2 adj u v = Ok x.
Proof.
  intros Hnone Hu Hv Hne.
  destruct (getitem2 adj u v) as [x|e|] eqn:E; [eauto| |].
  - assert (off_diagonal_missing adj = true) as Habs; [|congruence].
    apply off_diagonal_missing_true. exists u, v.
    apply getitem2_raises in E as He. subst. auto.
  - destruct (getitem2_no_fuel _ _ _ E).
Qed.

(** A matrix that lacks no entry off the diagonal reads as its square. *)
Lemma same_readings_squared adj :
  off_diagonal_missing adj = false -> same_readings adj (squared adj).
Proof.
  intros Hnone. split; [apply squared_length|].
  intros u v Hu Hv Hne. unfold read.
  rewrite getitem2_squared by assumption.
  destruct (off_diagonal_present adj u v Hnone Hu Hv Hne) as [x Hx].
  unfold cellv. rewrite Hx. reflexivity.
Qed.

(** A missing entry off the diagonal is read, unless something failed
    before. *)
Lemma main_loop_reads adj s t u v :
  based adj s ->
  0 <= u < py_len adj -> 0 <= v < py_len adj -> u <> v ->
  for_each (range (Z.shiftl 1 (py_len adj))) (process_mask (py_len adj)) s
  = (t, Ok tt) ->
  exists x, getitem2 adj u v = Ok x.
Proof.
  intros Hb Hu Hv Hne Hrun.
  assert (Hmask : 0 <= 2 ^ u < 2 ^ py_len adj).
  { split; [apply Z.pow_nonneg; lia|]. apply Z.pow_lt_mono_r; lia. }
  destruct (main_loop_keeps adj s t (range (Z.shiftl 1 (py_len adj))) Hb)
    as [_ Heach]; [|exact Hrun|].
  { intros m Hm. apply range_In in Hm. rewrite shiftl_1_pow2 in Hm. exact Hm. }
  destruct (Heach (2 ^ u)) as (a1 & b1 & Ha1 & Hrun1).
  { apply range_In. rewrite shiftl_1_pow2. exact Hmask. }
  destruct (process_mask_keeps adj a1 b1 (2 ^ u) Ha1 Hmask Hrun1) as [_ Heach1].
  destruct (Heach1 u Hu) as (a2 & b2 & Ha2 & Hrun2).
  destruct (extend_from_keeps adj a2 b2 (2 ^ u) u Ha2 Hmask Hu Hrun2)
    as [_ Heach2].
  destruct (Heach2 (proj2 (proj2 Ha2) u Hu) v Hv) as (a3 & b3 & Ha3 & Hrun3).
  rewrite (try_extend_gen adj a3 (2 ^ u) u v (proj1 Ha3) Hmask Hv) in Hrun3.
  rewrite testbit_pow2 in Hrun3 by lia.
  destruct (Z.eqb_spec u v) as [|_]; [contradiction|].
  unfold read in Hrun3.
  destruct (getitem2 adj u v) as [x|e|]; [eauto|discriminate|discriminate].
Qed.

Lemma find_hamiltonian_path_missing adj fuel u v :
  0 <= u < py_len adj -> 0 <= v < py_len adj -> u <> v ->
  getitem2 adj u v = Raise IndexError ->
  find_hamiltonian_path fuel adj = Raise IndexError.
Proof.
  intros Hu Hv Hne Hmiss. unfold find_hamiltonian_path.
  destruct (base_spec adj (enter adj) eq_refl) as (s1 & Hb & Heq).
  unfold find_hamiltonian_path_body.
  erewrite bind_ok by reflexivity. cbv zeta. simpl st_adj.
  rewrite Heq.
  destruct (for_each (range (Z.shiftl 1 (py_len adj)))
              (process_mask (py_len adj)) s1) as [t o] eqn:Hloop.
  rewrite (bind_eq _ _ _ _ _ Hloop).
  pose proof (raises_only_for_each false _ _
                (raises_only_process_mask false (py_len adj)) _ _ _ Hloop)
    as Hout.
  destruct o as [[]|e|]; simpl in *.
  - destruct (main_loop_reads adj s1 t u v Hb Hu Hv Hne Hloop) as [x Hx].
    congruence.
  - subst. reflexivity.
  - discriminate.
Qed.

(** X2. The function reads the matrix only off the diagonal and only for
    truth values: two matrices with as many rows, whose entries off the
    diagonal read the same (the same truth value, or both missing), give
    the same result, exception included. Entries on the diagonal, rows
    longer than n, and a missing diagonal entry make no difference. *)
Theorem find_hamiltonian_path_off_diagonal
    (adj adj' : matrix) (fuel : nat) :
  py_len adj' = py_len adj ->
  (forall u v, 0 <= u < py_len adj -> 0 <= v < py_len adj -> u <> v ->
     read adj' u v = read adj u v) ->
  find_hamiltonian_path fuel adj' = find_hamiltonian_path fuel adj.
Proof.
  intros Hlen Hread. apply find_hamiltonian_path_transfers.
  split; assumption.
Qed.

Lemma find_hamiltonian_path_off_diagonal_witness :
  find_hamiltonian_path 2 ragged2 = find_hamiltonian_path 2 cycle2
  /\ find_hamiltonian_path 2 ragged2 = Ok (true, [1;0]).
Proof.
  split; [|vm_compute; reflexivity].
  apply find_hamiltonian_path_off_diagonal; [reflexivity|].
  intros u v Hu Hv Hne. change (py_len cycle2) with 2 in Hu, Hv.
  assert (Hcases : u = 0 /\ v = 1 \/ u = 1 /\ v = 0) by lia.
  destruct Hcases as [[-> ->]|[-> ->]]; vm_compute; reflexivity.
Defined.

(** X3. Entries count only as true or false: replacing every entry by 1
    or 0 according to its truth value changes nothing, on any matrix. *)
Theorem find_hamiltonian_path_truthiness (adj : matrix) (fuel : nat) :
  find_hamiltonian_path fuel (as_zero_one adj)
  = find_hamiltonian_path fuel adj.
Proof.
  apply find_hamiltonian_path_transfers. split.
  - unfold as_zero_one, py_len. rewrite length_map. reflexivity.
  - intros u v _ _ _. apply read_as_zero_one.
Qed.

(** X4. The call raises [IndexError] exactly when some entry off the
    diagonal is missing, that is when a row is too short to hold it;
    otherwise it returns as soon as the [while] loop may run n
    iterations. A row that lacks only its diagonal entry is accepted. *)
Theorem find_hamiltonian_path_index_error (adj : matrix) (fuel : nat) :
  (find_hamiltonian_path fuel adj = Raise IndexError
   <-> exists u v, 0 <= u < py_len adj /\ 0 <= v < py_len adj /\ u <> v
                   /\ getitem2 adj u v = Raise IndexError)
  /\ (off_diagonal_missing adj = false -> (length adj <= fuel)%nat ->
      exists existence path,
        find_hamiltonian_path fuel adj = Ok (existence, path)).
Proof.
  assert (Hok : off_diagonal_missing adj = false ->
    find_hamiltonian_path fuel adj <> Raise IndexError
    /\ ((length adj <= fuel)%nat ->
        exists existence path,
          find_hamiltonian_path fuel adj = Ok (existence, path))).
  { intros Hnone.
    rewrite <- (find_hamiltonian_path_transfers adj (squared adj)
                  (same_readings_squared adj Hnone) fuel).
    destruct (find_hamiltonian_path_outcome (squared adj) fuel
                (squared_square adj))
      as [[_ Hres]|(v & l & Hp & Hres)]; rewrite Hres.
    - split; [discriminate|eauto].
    - rewrite (hpath_full_length _ v l Hp).
      replace (length (squared adj)) with (length adj)
        by (pose proof (squared_length adj) as E; unfold py_len in E; lia).
      split.
      + destruct (length adj <=? fuel)%nat; discriminate.
      + intros Hfuel. destruct (Nat.leb_spec (length adj) fuel); [eauto|lia]. }
  split; [split|].
  - intros Hraise. apply off_diagonal_missing_true.
    destruct (off_diagonal_missing adj); [reflexivity|].
    destruct (proj1 (Hok eq_refl) Hraise).
  - intros (u & v & Hu & Hv & Hne & Hmiss).
    exact (find_hamiltonian_path_missing adj fuel u v Hu Hv Hne Hmiss).
  - intros Hnone. apply (Hok Hnone).
Qed.

Lemma find_hamiltonian_path_index_error_witness :
  exists existence path,
    find_hamiltonian_path 2 ragged2 = Ok (existence, path).
Proof.
  apply (proj2 (find_hamiltonian_path_index_error ragged2 2)).
  - vm_compute. reflexivity.
  - simpl. lia.
Defined.

(** ** The tables and the result of a call on a square matrix *)

Lemma range_lookup k (i : nat) x : range k !! i = Some x -> x = Z.of_nat i.
Proof.
  unfold range. rewrite lookup_map.
  destruct (seq 0 (Z.to_nat k) !! i) as [j|] eqn:E; [|discriminate].
  apply lookup_seq in E as [-> _]. simpl. intros [= <-]. reflexivity.
Qed.

(** [range] is in increasing order: what is below an element is before
    it. *)
Lemma range_before k vs1 v vs2 w :
  range k = vs1 ++ v :: vs2 -> 0 <= w < v -> In w vs1.
Proof.
  intros Hsplit Hw.
  assert (Hv : v = Z.of_nat (length vs1)).
  { apply (range_lookup k). rewrite Hsplit. apply list_lookup_middle.
    reflexivity. }
  destruct (lookup_lt_is_Some_2 vs1 (Z.to_nat w)) as [y Hy]; [lia|].
  assert (y = w); [|subst y].
  { rewrite (range_lookup k (Z.to_nat w) y); [lia|].
    rewrite Hsplit, lookup_app_l by lia. assumption. }
  apply list_elem_of_In. eapply list_elem_of_lookup_2. eassumption.
Qed.

Lemma hpath_last adj m v l : hpath adj m v l -> last (rev l) = Some v.
Proof.
  intros Hp. destruct (hpath_head _ _ _ _ Hp) as [r ->].
  simpl. apply last_snoc.
Qed.

Lemma hpath_path_over adj m v l :
  hpath adj m v l -> path_over adj m v (rev l).
Proof.
  intros Hp. split; [eapply hpath_last; eassumption|].
  split; [rewrite <- Permutation_rev; eapply hpath_NoDup; eassumption|].
  split; [|eapply hpath_walk; eassumption].
  intros i. rewrite <- in_rev. split.
  - intros Hi. split; [eapply hpath_range; eassumption|].
    apply (hpath_bits _ _ _ _ Hp). assumption.
  - intros [_ Hb]. apply (hpath_bits _ _ _ _ Hp). assumption.
Qed.

Lemma path_over_hpath adj m v p :
  0 <= m < 2 ^ py_len adj -> path_over adj m v p -> hpath adj m v (rev p).
Proof.
  intros Hm (Hlast & Hnd & Hin & Hwalk).
  apply last_Some in Hlast as [p' ->].
  rewrite rev_app_distr. simpl.
  destruct (walk_hpath adj v (rev p')) as [m' Hp].
  - change (v :: rev p') with (rev [v] ++ rev p').
    rewrite <- rev_app_distr, <- Permutation_rev. assumption.
  - intros i Hi. apply Hin.
    change (v :: rev p') with (rev [v] ++ rev p') in Hi.
    rewrite <- rev_app_distr, <- in_rev in Hi. assumption.
  - change (v :: rev p') with (rev [v] ++ rev p').
    rewrite <- rev_app_distr, rev_involutive. assumption.
  - replace m with m'; [assumption|].
    apply Z.bits_inj'. intros i Hi.
    destruct (Z.testbit m i) eqn:Hb.
    + apply (hpath_bits _ _ _ _ Hp).
      change (v :: rev p') with (rev [v] ++ rev p').
      rewrite <- rev_app_distr, <- in_rev. apply Hin. split; [|assumption].
      destruct (Z.lt_ge_cases i (py_len adj)); [lia|].
      rewrite (proj1 (mask_bound_bits (py_len adj) m (py_len_nonneg adj)) Hm)
        in Hb by assumption. discriminate.
    + destruct (Z.testbit m' i) eqn:Hb'; [|reflexivity].
      apply (hpath_bits _ _ _ _ Hp) in Hb'.
      change (v :: rev p') with (rev [v] ++ rev p') in Hb'.
      rewrite <- rev_app_distr, <- in_rev in Hb'.
      apply Hin in Hb' as [_ Hb']. congruence.
Qed.

Lemma hamiltonian_hpath_last adj p w :
  hamiltonian adj p -> last p = Some w ->
  exists l, hpath adj (2 ^ py_len adj - 1) w l.
Proof.
  intros [Hperm Hok] Hlast. exists (rev p).
  apply path_over_hpath; [apply full_mask_range|].
  split; [assumption|].
  split; [rewrite Hperm; apply range_NoDup|].
  split; [|apply consecutive_ok_lookup; assumption].
  intros i. split.
  - intros Hi. apply (Permutation_in i Hperm), range_In in Hi.
    split; [assumption|].
    rewrite testbit_full_mask by (lia || apply py_len_nonneg).
    apply Z.ltb_lt. lia.
  - intros [Hi _]. apply (Permutation_in i (Permutation_sym Hperm)), range_In.
    assumption.
Qed.

Lemma body_as_find_end adj fuel s :
  square adj -> st_adj s = adj ->
  exists s', filled adj s'
    /\ find_hamiltonian_path_body fuel s
       = find_end fuel (2 ^ py_len adj - 1) (range (py_len adj)) s'.
Proof.
  intros Hsq Hadj. destruct (build_spec adj Hsq s Hadj) as (s' & Hf & Hrun).
  exists s'. split; [assumption|].
  unfold find_hamiltonian_path_body.
  erewrite bind_ok by (unfold adj_len; rewrite Hadj; reflexivity).
  cbv zeta. rewrite Hrun, shiftl_1_pow2. reflexivity.
Qed.

(** The scan stops at the first vertex whose cell is true. *)
Lemma find_end_first adj s t fuel vs path :
  filled adj s -> (forall v, In v vs -> 0 <= v < py_len adj) ->
  find_end fuel (2 ^ py_len adj - 1) vs s = (t, Ok (true, path)) ->
  exists vs1 v vs2,
    vs = vs1 ++ v :: vs2
    /\ (forall w, In w vs1 -> dpv s (2 ^ py_len adj - 1) w = false)
    /\ last path = Some v.
Proof.
  intros Hf Hvs. pose proof Hf as (Hs & Hsound & _).
  pose proof (full_mask_range adj) as Hfull.
  induction vs as [|v vs IH]; simpl; [discriminate|].
  assert (Hv : 0 <= v < py_len adj) by (apply Hvs; left; reflexivity).
  erewrite bind_ok by (eapply dp_get_spec; eassumption).
  destruct (dpv s (2 ^ py_len adj - 1) v) eqn:Htrue.
  - destruct (reconstruct_spec adj s Hs Hsound (Z.to_nat (2 ^ py_len adj))
                (2 ^ py_len adj - 1) v) as (l & Hp & Hrec);
      try (assumption || lia).
    unfold bind. rewrite Hrec. simpl.
    destruct (length l <=? fuel)%nat; [|discriminate].
    intros [= <- <-]. exists [], v, vs. split; [reflexivity|].
    split; [intros w []|]. eapply hpath_last. eassumption.
  - intros Hrun. destruct IH as (vs1 & v0 & vs2 & -> & Hbefore & Hlast);
      [intros w Hw; apply Hvs; right; assumption|assumption|].
    exists (v :: vs1), v0, vs2. split; [reflexivity|].
    split; [|assumption]. intros w [<-|Hw]; auto.
Qed.

(** X5. The tie-break of lines 46-47: on a square matrix the returned
    path ends at the lowest-numbered vertex at which any Hamiltonian path
    ends. *)
Theorem find_hamiltonian_path_lowest_end
    (adj : matrix) (fuel : nat) (path : list Z) :
  square adj ->
  find_hamiltonian_path fuel adj = Ok (true, path) ->
  exists v, last path = Some v
    /\ forall p w, hamiltonian adj p -> last p = Some w -> v <= w.
Proof.
  intros Hsq Hrun. unfold find_hamiltonian_path in Hrun.
  destruct (body_as_find_end adj fuel (enter adj) Hsq eq_refl)
    as (s & Hf & Hbody).
  rewrite Hbody in Hrun.
  destruct (find_end fuel (2 ^ py_len adj - 1) (range (py_len adj)) s)
    as [t o] eqn:Hscan.
  simpl in Hrun. subst o.
  destruct (find_end_first adj s t fuel (range (py_len adj)) path Hf)
    as (vs1 & v & vs2 & Hsplit & Hbefore & Hlast); [|exact Hscan|].
  { intros w. apply range_In. }
  exists v. split; [assumption|]. intros p w Hham Hw.
  destruct (Z.le_gt_cases v w) as [|Hlt]; [assumption|exfalso].
  destruct (hamiltonian_hpath_last adj p w Hham Hw) as [l Hp].
  pose proof (filled_complete adj s _ _ _ Hf Hp) as Htrue.
  pose proof (hpath_end_range _ _ _ _ Hp) as Hrange.
  rewrite (Hbefore w) in Htrue; [discriminate|].
  eapply range_before; [exact Hsplit|lia].
Qed.

Lemma find_hamiltonian_path_lowest_end_witness :
  exists v, last [1;2;0] = Some v
    /\ forall p w, hamiltonian triangle3 p -> last p = Some w -> v <= w.
Proof.
  apply (find_hamiltonian_path_lowest_end triangle3 3).
  - repeat constructor.
  - vm_compute. reflexivity.
Defined.

(** X6. What the comment of line 22 says of the table, at the end of a
    call on a square matrix: [dp[mask][v]] is true exactly when some path
    of the graph visits exactly the vertices of [mask], each once, and
    ends at [v]. *)
Theorem dp_table_meaning (adj : matrix) (fuel : nat) (m v : Z) :
  square adj ->
  0 <= m < 2 ^ py_len adj -> 0 <= v < py_len adj ->
  dpv (fst (find_hamiltonian_path_body fuel (enter adj))) m v = true
  <-> exists p, path_over adj m v p.
Proof.
  intros Hsq Hm Hv.
  destruct (find_hamiltonian_path_body_spec adj Hsq (enter adj) fuel eq_refl)
    as (s & Hf & Hres).
  assert (Hfst : fst (find_hamiltonian_path_body fuel (enter adj)) = s).
  { destruct Hres as [[_ ->]|(w & l & _ & ->)]; reflexivity. }
  rewrite Hfst. pose proof Hf as (Hs & Hsound & _). split.
  - intros Htrue.
    destruct (reconstruct_spec adj s Hs Hsound (S (Z.to_nat m)) m v)
      as (l & Hp & _); try (assumption || lia).
    exists (rev l). apply hpath_path_over. assumption.
  - intros [p Hp]. eapply filled_complete; [exact Hf|].
    eapply path_over_hpath; eassumption.
Qed.

Lemma dp_table_meaning_witness :
  dpv (fst (find_hamiltonian_path_body 4 (enter chain4))) 7 2 = true
  <-> exists p, path_over chain4 7 2 p.
Proof.
  apply dp_table_meaning.
  - repeat constructor.
  - change (py_len chain4) with 4. lia.
  - change (py_len chain4) with 4. lia.
Defined.

(** X7. What the comment of line 24 says of the table, at the end of a
    call on a square matrix: a true cell [(mask, v)] either is the
    one-vertex path ([mask] is [1 << v] and the parent is [-1]) or holds as
    parent a vertex [p] of [mask] other than [v], with an edge from [p] to
    [v], whose cell for [mask] without [v] is true. *)
Theorem parent_table_meaning (adj : matrix) (fuel : nat) (m v : Z) :
  square adj ->
  0 <= m < 2 ^ py_len adj -> 0 <= v < py_len adj ->
  dpv (fst (find_hamiltonian_path_body fuel (enter adj))) m v = true ->
  let s := fst (find_hamiltonian_path_body fuel (enter adj)) in
  (parv s m v = -1 /\ m = Z.shiftl 1 v)
  \/ (0 <= parv s m v < py_len adj /\ parv s m v <> v
      /\ Z.testbit m (parv s m v) = true
      /\ (exists x, getitem2 adj (parv s m v) v = Ok x /\ x <> 0)
      /\ dpv s (Z.lxor m (Z.shiftl 1 v)) (parv s m v) = true).
Proof.
  intros Hsq Hm Hv.
  destruct (find_hamiltonian_path_body_spec adj Hsq (enter adj) fuel eq_refl)
    as (s & Hf & Hres).
  assert (Hfst : fst (find_hamiltonian_path_body fuel (enter adj)) = s).
  { destruct Hres as [[_ ->]|(w & l & _ & ->)]; reflexivity. }
  rewrite Hfst. intros Htrue. cbv zeta. rewrite shiftl_1_pow2.
  destruct Hf as (Hs & Hsound & _).
  destruct (Hsound m v Hm Hv Htrue) as [Hbit [Hone|(Hr & He & Hprev)]];
    [left; assumption|right].
  pose proof (lxor_pow2_bound m v ltac:(lia) ltac:(lia) Hbit) as Hlt.
  assert (Hrange : 0 <= Z.lxor m (2 ^ v) < 2 ^ py_len adj) by lia.
  destruct (Hsound (Z.lxor m (2 ^ v)) (parv s m v) Hrange Hr Hprev)
    as [Hbitp _].
  rewrite testbit_lxor_pow2 in Hbitp by lia.
  split; [assumption|].
  destruct (Z.eq_dec (parv s m v) v) as [Heq|Hne].
  { rewrite Heq, Z.eqb_refl, Hbit in Hbitp. discriminate. }
  replace (v =? parv s m v) with false in Hbitp
    by (symmetry; apply Z.eqb_neq; congruence).
  rewrite xorb_false_r in Hbitp.
  split; [assumption|]. split; [assumption|].
  split; [apply has_edge_true; assumption|assumption].
Qed.

Lemma parent_table_meaning_witness :
  let s := fst (find_hamiltonian_path_body 4 (enter chain4)) in
  (parv s 7 2 = -1 /\ 7 = Z.shiftl 1 2)
  \/ (0 <= parv s 7 2 < py_len chain4 /\ parv s 7 2 <> 2
      /\ Z.testbit 7 (parv s 7 2) = true
      /\ (exists x, getitem2 chain4 (parv s 7 2) 2 = Ok x /\ x <> 0)
      /\ dpv s (Z.lxor 7 (Z.shiftl 1 2)) (parv s 7 2) = true).
Proof.
  apply (parent_table_meaning chain4 4 7 2).
  - repeat constructor.
  - change (py_len chain4) with 4. lia.
  - change (py_len chain4) with 4. lia.
  - vm_compute. reflexivity.
Defined.

(** ** The entry point on a square matrix *)

(** X8. Given the key and a square matrix, [run] returns a response (once
    the [while] loop may run n iterations) that either says 1 and carries a
    Hamiltonian path of the graph, or says 0 and carries the empty list,
    the graph then having no Hamiltonian path unless it has no vertex. *)
Theorem run_response {P E : Type} (fuel : nat)
    (input_data : gmap string matrix)
    (solver_params : option P) (extra_arguments : option E)
    (adj : matrix) :
  input_data !! "adjacency_matrix"%string = Some adj ->
  square adj -> (length adj <= fuel)%nat ->
  exists resp,
    run fuel input_data solver_params extra_arguments = Ok resp
    /\ ((existence resp = 1 /\ adj <> []
         /\ hamiltonian adj (optimal_solution resp))
        \/ (existence resp = 0 /\ optimal_solution resp = []
            /\ forall p, hamiltonian adj p -> adj = [])).
Proof.
  intros Hkey Hsq Hfuel. unfold run. rewrite Hkey.
  destruct (find_hamiltonian_path_outcome adj fuel Hsq)
    as [[Hnone Hres]|(v & l & Hp & Hres)]; rewrite Hres.
  - eexists. split; [reflexivity|]. right. simpl.
    split; [reflexivity|]. split; [reflexivity|].
    intros p Hham. destruct adj as [|row rows] eqn:Hadj; [reflexivity|].
    destruct (hamiltonian_hpath (row :: rows) p ltac:(discriminate) Hham)
      as (v & l & Hp).
    destruct (Hnone v l Hp).
  - rewrite (hpath_full_length adj v l Hp).
    destruct (Nat.leb_spec (length adj) fuel); [|lia].
    eexists. split; [reflexivity|]. left. simpl.
    split; [reflexivity|]. exact (hpath_hamiltonian adj v l Hp).
Qed.

Lemma run_response_witness :
  exists resp,
    run 3 ({[ "adjacency_matrix"%string := triangle3 ]} : gmap string matrix)
        (@None unit) (@None unit) = Ok resp
    /\ ((existence resp = 1 /\ triangle3 <> []
         /\ hamiltonian triangle3 (optimal_solution resp))
        \/ (existence resp = 0 /\ optimal_solution resp = []
            /\ forall p, hamiltonian triangle3 p -> triangle3 = [])).
Proof.
  apply run_response.
  - vm_compute. reflexivity.
  - repeat constructor.
  - simpl. lia.
Defined.

(** X9. The [while] loop of lines 52-59 runs exactly n times when a path
    is found, and not at all otherwise: on a square matrix a budget of
    iterations is used up exactly when it is below n and the graph, not
    empty, has a Hamiltonian path. *)
Theorem reconstruction_iterations (adj : matrix) (fuel : nat) :
  square adj ->
  find_hamiltonian_path fuel adj = OutOfFuel
  <-> (fuel < length adj)%nat /\ adj <> [] /\ exists p, hamiltonian adj p.
Proof.
  intros Hsq.
  destruct (find_hamiltonian_path_outcome adj fuel Hsq)
    as [[Hnone Hres]|(v & l & Hp & Hres)]; rewrite Hres.
  - split; [discriminate|]. intros (_ & Hne & p & Hham).
    destruct (hamiltonian_hpath adj p Hne Hham) as (v & l & Hp).
    destruct (Hnone v l Hp).
  - rewrite (hpath_full_length adj v l Hp).
    destruct (hpath_hamiltonian adj v l Hp) as [Hne Hham].
    destruct (Nat.leb_spec (length adj) fuel).
    + split; [discriminate|]. intros [Hlt _]. lia.
    + split; [eauto|reflexivity].
Qed.

Lemma reconstruction_iterations_witness :
  find_hamiltonian_path 2 triangle3 = OutOfFuel
  <-> (2 < length triangle3)%nat /\ triangle3 <> []
      /\ exists p, hamiltonian triangle3 p.
Proof.
  apply reconstruction_iterations. repeat constructor.
Defined.

(** ** The parent recorded is the lowest one *)

Section Least.
Variable adj : matrix.
Hypothesis Hsquare : square adj.
Abbreviation n := (py_len adj).

Lemma sound_base_parent s m v u :
  sound adj s -> 0 <= m < 2 ^ n -> 0 <= v < n -> dpv s m v = true ->
  0 <= u < parv s m v ->
  0 <= parv s m v < n /\ m <> 2 ^ v /\ 0 <= Z.lxor m (2 ^ v) < m.
Proof.
  intros Hsound Hm Hv Htrue Hu.
  destruct (Hsound m v Hm Hv Htrue) as [Hbit [[Hpar _]|(Hr & _ & Hprev)]];
    [lia|].
  pose proof (lxor_pow2_bound m v ltac:(lia) ltac:(lia) Hbit) as Hlt.
  split; [assumption|]. split; [|assumption].
  intros ->. rewrite Z.lxor_nilpotent in Hprev.
  assert (H0 : 0 <= 0 < 2 ^ n) by lia.
  destruct (Hsound 0 (parv s (2 ^ v) v) H0 Hr Hprev) as [Hbit0 _].
  rewrite Z.bits_0 in Hbit0. discriminate.
Qed.

Lemma done_upto_grows k u0 a b :
  0 <= k < 2 ^ n -> grows n k a b ->
  done_upto adj k u0 a -> done_upto adj k u0 b.
Proof.
  intros Hk Hg Hdone u v Hu Hv Hlt Hsrc Hbit He.
  eapply grows_true; eauto using lor_pow2_bound.
  apply (Hdone u v); try assumption.
  rewrite <- Hsrc. symmetry. apply Hg; (assumption || lia).
Qed.

Lemma try_extend_least a b k u v :
  shape adj a -> sound adj a -> recent n k a -> least_parent adj a ->
  done_upto adj k u a ->
  0 <= k < 2 ^ n -> 0 <= u < n -> 0 <= v < n ->
  try_extend k u v a = (b, Ok tt) ->
  recent n k b /\ least_parent adj b.
Proof.
  intros Hs Hsound Hrec Hlp Hdone Hk Hu Hv Hrun.
  pose proof (try_extend_grows adj Hsquare a b k u v Hs Hk Hu Hv Hrun) as Hg.
  destruct (try_extend_spec adj Hsquare a k u v Hs Hk Hu Hv)
    as (b' & Hrun' & _ & Hc).
  rewrite Hrun in Hrun'. injection Hrun' as <-.
  destruct (Z.testbit k v) eqn:Hbit; simpl in Hc; [subst; auto|].
  destruct (has_edge adj u v) eqn:He; simpl in Hc; [|subst; auto].
  destruct (dpv a (Z.lor k (2 ^ v)) v) eqn:Hd; simpl in Hc; [subst; auto|].
  destruct Hc as (Hdp & Hpar & Hother).
  split.
  - intros m w Hm Hw Htrue.
    destruct (Z.eq_dec m (Z.lor k (2 ^ v))) as [Hem|Hne];
      [destruct (Z.eq_dec w v) as [Hew|Hnw]|].
    + subst m w. right. rewrite lxor_lor_pow2 by (assumption || lia). lia.
    + apply Hrec; try assumption.
      rewrite <- (proj1 (Hother m w Hm Hw (or_intror Hnw))). assumption.
    + apply Hrec; try assumption.
      rewrite <- (proj1 (Hother m w Hm Hw (or_introl Hne))). assumption.
  - intros m w Hm Hw Htrue u' Hu' Hel He'.
    assert (Hold : m <> Z.lor k (2 ^ v) \/ w <> v -> False).
    { intros Hne. destruct (Hother m w Hm Hw Hne) as [E1 E2].
      rewrite E1 in Htrue. rewrite E2 in Hu'.
      destruct (sound_base_parent a m w u' Hsound Hm Hw Htrue Hu')
        as (Hr & Hnb & Hlx).
      destruct (Hrec m w Hm Hw Htrue) as [|Hle]; [contradiction|].
      apply (Hlp m w Hm Hw Htrue u' Hu'); [|assumption].
      rewrite <- Hel. symmetry. apply Hg; lia. }
    destruct (Z.eq_dec m (Z.lor k (2 ^ v))) as [Hem|Hne];
      [destruct (Z.eq_dec w v) as [Hew|Hnw]|]; [|auto|auto].
    subst m w. rewrite Hpar in Hu'.
    rewrite lxor_lor_pow2 in Hel by (assumption || lia).
    assert (Hsrc : dpv a k u' = true).
    { rewrite <- Hel. symmetry. apply Hg; lia. }
    rewrite (Hdone u' v) in Hd by (assumption || lia). discriminate.
Qed.

Lemma extend_from_least a k u :
  shape adj a -> sound adj a -> recent n k a -> least_parent adj a ->
  done_upto adj k u a -> 0 <= k < 2 ^ n -> 0 <= u < n ->
  exists b, extend_from n k u a = (b, Ok tt)
    /\ (shape adj b /\ sound adj b /\ recent n k b /\ least_parent adj b)
    /\ done_upto adj k (u + 1) b /\ grows n k a b.
Proof.
  intros Hs Hsound Hrec Hlp Hdone Hk Hu. unfold extend_from.
  erewrite bind_ok by (eapply dp_get_spec; eassumption).
  destruct (dpv a k u) eqn:Hsrc.
  2:{ exists a. split; [reflexivity|]. split; [auto|].
      split; [|apply grows_refl].
      intros u' v' Hu' Hv' Hlt Hsrc'.
      destruct (Z.eq_dec u' u) as [->|Hne]; [congruence|].
      apply (Hdone u' v'); (assumption || lia). }
  destruct (for_each_spec
    (fun x => shape adj x /\ sound adj x /\ recent n k x /\ least_parent adj x
              /\ done_upto adj k u x /\ dpv x k u = true)
    (grows n k)
    (fun v x => Z.testbit k v = false -> has_edge adj u v = true ->
                dpv x (Z.lor k (2 ^ v)) v = true)
    (try_extend k u) (range n)) with (s := a)
    as (b & Hrun & (Hsb & Hsoundb & Hrecb & Hlpb & Hdoneb & Hsrcb) & Hg & Hpost).
  - apply grows_refl.
  - apply grows_trans.
  - intros v x y Hv _ Hxy HQ Hb He. apply range_In in Hv.
    eapply grows_true; eauto using lor_pow2_bound.
  - intros v x Hv (Hsx & Hsoundx & Hrecx & Hlpx & Hdonex & Hsrcx).
    apply range_In in Hv.
    destruct (try_extend_spec adj Hsquare x k u v Hsx Hk Hu Hv)
      as (y & Hrun & Hsy & _).
    pose proof (try_extend_grows adj Hsquare x y k u v Hsx Hk Hu Hv Hrun)
      as Hg.
    destruct (try_extend_least x y k u v Hsx Hsoundx Hrecx Hlpx Hdonex
                Hk Hu Hv Hrun) as [Hrecy Hlpy].
    exists y. split; [assumption|]. split; [|split; [assumption|]].
    + split; [assumption|].
      split; [exact (try_extend_sound adj Hsquare x y k u v Hsx Hk Hu Hv
                       Hrun Hsrcx Hsoundx)|].
      split; [assumption|]. split; [assumption|].
      split; [eapply done_upto_grows; eassumption|].
      exact (grows_true n k x y k u Hg Hk Hu Hsrcx).
    + intros Hbit He.
      exact (try_extend_post adj Hsquare x y k u v Hsx Hk Hu Hv Hrun Hbit He).
  - auto 10.
  - exists b. split; [assumption|]. split; [auto|]. split; [|assumption].
    intros u' v' Hu' Hv' Hlt Hsrc' Hbit He.
    destruct (Z.eq_dec u' u) as [->|Hne].
    + apply Hpost; [apply range_In|..]; assumption.
    + apply (Hdoneb u' v'); (assumption || lia).
Qed.

Lemma process_mask_prefix_least (u0 : nat) a k :
  Z.of_nat u0 <= n ->
  shape adj a -> sound adj a -> recent n k a -> least_parent adj a ->
  0 <= k < 2 ^ n ->
  exists b, for_each (range (Z.of_nat u0)) (extend_from n k) a = (b, Ok tt)
    /\ (shape adj b /\ sound adj b /\ recent n k b /\ least_parent adj b)
    /\ done_upto adj k (Z.of_nat u0) b /\ grows n k a b.
Proof.
  intros Hu0 Hs Hsound Hrec Hlp Hk. induction u0 as [|u0 IH].
  - exists a. split; [reflexivity|]. split; [auto|].
    split; [|apply grows_refl]. intros u v Hu Hv Hlt. lia.
  - destruct IH as (b & Hrun & (Hsb & Hsoundb & Hrecb & Hlpb) & Hdoneb & Hg);
      [lia|].
    destruct (extend_from_least b k (Z.of_nat u0) Hsb Hsoundb Hrecb Hlpb
                Hdoneb Hk) as (c & Hrunc & Hinvc & Hdonec & Hgc); [lia|].
    exists c. split.
    { rewrite range_succ, for_each_app.
      erewrite bind_ok by exact Hrun. simpl.
      erewrite bind_ok by exact Hrunc. reflexivity. }
    split; [assumption|]. split.
    + replace (Z.of_nat (S u0)) with (Z.of_nat u0 + 1) by lia. assumption.
    + eapply grows_trans; eassumption.
Qed.

Lemma main_loop_least (k0 : nat) s :
  Z.of_nat k0 <= 2 ^ n ->
  shape adj s -> sound adj s -> recent n (-1) s -> least_parent adj s ->
  exists t, for_each (range (Z.of_nat k0)) (process_mask n) s = (t, Ok tt)
    /\ shape adj t /\ sound adj t /\ recent n (Z.of_nat k0 - 1) t
    /\ least_parent adj t.
Proof.
  intros Hk0 Hs Hsound Hrec Hlp. induction k0 as [|k0 IH].
  - exists s. split; [reflexivity|]. auto.
  - destruct IH as (t & Hrun & Hst & Hsoundt & Hrect & Hlpt); [lia|].
    assert (Hrect' : recent n (Z.of_nat k0) t).
    { intros m v Hm Hv Htrue. destruct (Hrect m v Hm Hv Htrue); [auto|].
      right. lia. }
    pose proof (py_len_nonneg adj) as Hn.
    destruct (process_mask_prefix_least (Z.to_nat n) t (Z.of_nat k0))
      as (c & Hrunc & (Hsc & Hsoundc & Hrecc & Hlpc) & _ & _);
      try (assumption || lia).
    rewrite Z2Nat.id in Hrunc by apply py_len_nonneg.
    exists c. split.
    { rewrite range_succ, for_each_app.
      erewrite bind_ok by exact Hrun. simpl. unfold process_mask at 1.
      erewrite bind_ok by exact Hrunc. reflexivity. }
    split; [assumption|]. split; [assumption|]. split; [|assumption].
    replace (Z.of_nat (S k0) - 1) with (Z.of_nat k0) by lia. assumption.
Qed.

(** When the base case is done the true cells are the one-vertex paths. *)
Lemma base_loop_only s :
  shape adj s -> (forall m v, 0 <= m < 2 ^ n -> 0 <= v < n ->
                    dpv s m v = false) ->
  exists s1, for_each (range n) base_case s = (s1, Ok tt)
    /\ shape adj s1
    /\ forall m v, 0 <= m < 2 ^ n -> 0 <= v < n ->
         dpv s1 m v = true -> m = 2 ^ v.
Proof.
  intros Hs Hfresh.
  destruct (for_each_spec
    (fun x => shape adj x /\ forall m v, 0 <= m < 2 ^ n -> 0 <= v < n ->
                dpv x m v = true -> m = 2 ^ v)
    (fun _ _ => True) (fun _ _ => True) base_case (range n)) with (s := s)
    as (s1 & Hrun & [Hs1 Honly] & _); auto.
  - intros v x Hv [Hsx Honly]. apply range_In in Hv.
    unfold base_case. rewrite shiftl_1_pow2.
    destruct (record_cell adj x (2 ^ v) v (-1) Hsx (pow2_range adj v Hv) Hv)
      as (y & Hrun & Hsy & _ & _ & Hother).
    exists y. split; [assumption|]. split; [|auto].
    split; [assumption|]. intros m w Hm Hw Htrue.
    destruct (Z.eq_dec m (2 ^ v)) as [Hem|Hne];
      [destruct (Z.eq_dec w v) as [Hew|Hnw]|].
    + subst. reflexivity.
    + apply Honly; try assumption.
      rewrite <- (proj1 (Hother m w Hm Hw (or_intror Hnw))). assumption.
    + apply Honly; try assumption.
      rewrite <- (proj1 (Hother m w Hm Hw (or_introl Hne))). assumption.
  - split; [assumption|]. intros m v Hm Hv Htrue.
    rewrite Hfresh in Htrue by assumption. discriminate.
  - eauto.
Qed.

Lemma build_least s :
  st_adj s = adj ->
  exists s2,
    (alloc_tables n ;;
     for_each (range n) base_case ;;
     for_each (range (Z.shiftl 1 n)) (process_mask n) ;;
     ret tt) s = (s2, Ok tt)
    /\ least_parent adj s2.
Proof.
  intros Hadj.
  destruct (alloc_tables_spec adj s Hadj) as (s0 & Hrun0 & Hs0 & Hfresh).
  destruct (base_loop_only s0 Hs0) as (s1 & Hrun1 & Hs1 & Honly).
  { intros m v Hm Hv. apply (Hfresh m v Hm Hv). }
  assert (Hsound0 : sound adj s0).
  { intros m v Hm Hv Htrue. rewrite (proj1 (Hfresh m v Hm Hv)) in Htrue.
    discriminate. }
  destruct (base_loop_spec adj s0 Hs0 Hsound0)
    as (s1' & Hrun1' & [_ Hsound1] & _).
  rewrite Hrun1 in Hrun1'. injection Hrun1' as <-.
  assert (H2 : 0 <= 2 ^ n) by (apply Z.pow_nonneg; lia).
  destruct (main_loop_least (Z.to_nat (2 ^ n)) s1)
    as (s2 & Hrun2 & _ & _ & _ & Hlp); try (assumption || lia).
  - intros m v Hm Hv Htrue. left. apply Honly; assumption.
  - intros m v Hm Hv Htrue u Hu.
    destruct (sound_base_parent s1 m v u Hsound1 Hm Hv Htrue Hu)
      as (_ & Hnb & _).
    destruct (Hnb (Honly m v Hm Hv Htrue)).
  - rewrite Z2Nat.id in Hrun2 by assumption.
    exists s2. split; [|assumption]. rewrite shiftl_1_pow2.
    erewrite bind_ok by exact Hrun0.
    erewrite bind_ok by exact Hrun1.
    erewrite bind_ok by exact Hrun2. reflexivity.
Qed.
End Least.

(** The scan and the reconstruction only read the store. *)
Lemma reconstruct_store fuel :
  forall cur_mask cur_v path s,
    fst (reconstruct fuel cur_mask cur_v path s) = s.
Proof.
  induction fuel as [|fuel IH]; intros cur_mask cur_v path s; simpl;
    destruct (cur_v =? -1); try reflexivity.
  unfold bind, parent_get.
  destruct (getitem2 (st_parent s) cur_mask cur_v) as [prev|e|];
    try reflexivity.
  destruct (prev =? -1); [reflexivity|apply IH].
Qed.

Lemma find_end_store fuel full_mask vs s :
  fst (find_end fuel full_mask vs s) = s.
Proof.
  induction vs as [|v vs IH]; simpl; [reflexivity|].
  unfold bind at 1, dp_get.
  destruct (getitem2 (st_dp s) full_mask v) as [[|]|e|]; try reflexivity;
    [|apply IH].
  unfold bind. pose proof (reconstruct_store fuel full_mask v [] s) as Hst.
  destruct (reconstruct fuel full_mask v [] s) as [t [path|e|]];
    simpl in *; assumption.
Qed.

(** X10. The tie-break of lines 34-43: when the call on a square matrix
    ends, the parent of a true cell [(mask, v)] is the lowest vertex that
    could be: no vertex [u] below it has [dp[mask ^ (1 << v)][u]] true and
    [adj[u][v]] nonzero. *)
Theorem parent_is_lowest (adj : matrix) (fuel : nat) (m v u : Z) :
  square adj ->
  0 <= m < 2 ^ py_len adj -> 0 <= v < py_len adj ->
  let s := fst (find_hamiltonian_path_body fuel (enter adj)) in
  dpv s m v = true -> 0 <= u < parv s m v ->
  ~ (dpv s (Z.lxor m (Z.shiftl 1 v)) u = true
     /\ exists x, getitem2 adj u v = Ok x /\ x <> 0).
Proof.
  intros Hsq Hm Hv.
  destruct (build_spec adj Hsq (enter adj) eq_refl) as (s' & _ & Hrun).
  destruct (build_least adj Hsq (enter adj) eq_refl) as (s2 & Hrun2 & Hlp).
  rewrite Hrun in Hrun2. injection Hrun2 as <-.
  assert (Hbody : find_hamiltonian_path_body fuel (enter adj)
                  = find_end fuel (2 ^ py_len adj - 1)
                      (range (py_len adj)) s').
  { unfold find_hamiltonian_path_body.
    erewrite bind_ok by reflexivity. cbv zeta. simpl st_adj.
    rewrite Hrun, shiftl_1_pow2. reflexivity. }
  rewrite Hbody, find_end_store. cbv zeta.
  intros Htrue Hu [Hel (x & Hx & Hx0)].
  rewrite shiftl_1_pow2 in Hel.
  apply (Hlp m v Hm Hv Htrue u Hu Hel).
  unfold has_edge, truthy. rewrite Hx.
  destruct (Z.eqb_spec x 0); [contradiction|reflexivity].
Qed.

Lemma parent_is_lowest_witness :
  ~ (dpv (fst (find_hamiltonian_path_body 3 (enter triangle3)))
       (Z.lxor 7 (Z.shiftl 1 0)) 1 = true
     /\ exists x, getitem2 triangle3 1 0 = Ok x /\ x <> 0).
Proof.
  apply (parent_is_lowest triangle3 3 7 0 1).
  - repeat constructor.
  - change (py_len triangle3) with 3. lia.
  - change (py_len triangle3) with 3. lia.
  - vm_compute. reflexivity.
  - vm_compute. split; [discriminate|reflexivity].
Defined.

(** ** The result on every matrix the function accepts *)

Lemma has_edge_read adj u v :
  has_edge adj u v = match read adj u v with Ok b => b | _ => false end.
Proof.
  unfold has_edge, read. destruct (getitem2 adj u v); reflexivity.
Qed.

Lemma hamiltonian_same_readings adj adj' p :
  py_len adj' = py_len adj ->
  (forall u v, 0 <= u < py_len adj -> 0 <= v < py_len adj -> u <> v ->
     read adj' u v = read adj u v) ->
  hamiltonian adj p -> hamiltonian adj' p.
Proof.
  intros Hlen Hread [Hperm Hedges]. split; [rewrite Hlen; assumption|].
  intros i a b Ha Hb.
  assert (Hnd : NoDup p) by (rewrite Hperm; apply range_NoDup).
  assert (Hin : forall x, x ∈ p -> 0 <= x < py_len adj).
  { intros x Hx. apply range_In, (Permutation_in x Hperm), list_elem_of_In.
    assumption. }
  assert (Hne : a <> b).
  { intros ->. pose proof (NoDup_lookup p i (S i) b Hnd Ha Hb). lia. }
  rewrite has_edge_read, Hread, <- has_edge_read.
  - eapply Hedges; eassumption.
  - apply Hin. eapply list_elem_of_lookup_2. eassumption.
  - apply Hin. eapply list_elem_of_lookup_2. eassumption.
  - assumption.
Qed.

Lemma hamiltonian_squared adj p :
  off_diagonal_missing adj = false ->
  hamiltonian adj p <-> hamiltonian (squared adj) p.
Proof.
  intros Hnone. destruct (same_readings_squared adj Hnone) as [Hlen Hread].
  split.
  - apply hamiltonian_same_readings; assumption.
  - apply hamiltonian_same_readings; [symmetry; assumption|].
    rewrite Hlen. intros u v Hu Hv Hne. symmetry. apply Hread; assumption.
Qed.

(** A matrix that lacks no entry off the diagonal is handled as its
    square is. *)
Lemma find_hamiltonian_path_squared adj fuel :
  off_diagonal_missing adj = false ->
  find_hamiltonian_path fuel adj = find_hamiltonian_path fuel (squared adj).
Proof.
  intros Hnone. symmetry.
  apply find_hamiltonian_path_transfers, same_readings_squared. assumption.
Qed.

Lemma returned_complete adj fuel r :
  find_hamiltonian_path fuel adj = Ok r -> off_diagonal_missing adj = false.
Proof.
  intros Hrun. destruct (off_diagonal_missing adj) eqn:Hmiss; [|reflexivity].
  apply off_diagonal_missing_true in Hmiss
    as (u & v & Hu & Hv & Hne & Hmiss).
  rewrite (find_hamiltonian_path_missing adj fuel u v Hu Hv Hne Hmiss) in Hrun.
  discriminate.
Qed.

(** X11. Whenever the call returns, on any matrix, square or not, the
    result is right for the graph the matrix describes: true comes with a
    Hamiltonian path of it (every vertex once, each consecutive pair a
    nonzero entry), false comes with the empty list and the graph then has
    no Hamiltonian path unless it has no vertex. *)
Theorem find_hamiltonian_path_correct_when_returns
    (adj : matrix) (fuel : nat) (existence : bool) (path : list Z) :
  find_hamiltonian_path fuel adj = Ok (existence, path) ->
  (existence = true -> adj <> [] /\ hamiltonian adj path)
  /\ (existence = false ->
      path = [] /\ forall p, hamiltonian adj p -> adj = []).
Proof.
  intros Hrun. pose proof (returned_complete adj fuel _ Hrun) as Hnone.
  rewrite (find_hamiltonian_path_squared adj fuel Hnone) in Hrun.
  assert (Hempty : squared adj <> [] -> adj <> []).
  { intros Hne ->. apply Hne. reflexivity. }
  destruct (find_hamiltonian_path_outcome (squared adj) fuel
              (squared_square adj))
    as [[Habsent Hres]|(v & l & Hp & Hres)]; rewrite Hres in Hrun.
  - injection Hrun as <- <-. split; [discriminate|]. intros _.
    split; [reflexivity|]. intros p Hham.
    destruct adj as [|row rows]; [reflexivity|exfalso].
    apply (hamiltonian_squared _ p Hnone) in Hham.
    destruct (hamiltonian_hpath (squared (row :: rows)) p) as (v & l & Hp);
      [|exact Hham|exact (Habsent v l Hp)].
    intros Heq. pose proof (squared_length (row :: rows)) as Hlen.
    rewrite Heq in Hlen. unfold py_len in Hlen. simpl in Hlen. lia.
  - destruct (length l <=? fuel)%nat; [|discriminate].
    injection Hrun as <- <-. split; [|discriminate]. intros _.
    destruct (hpath_hamiltonian (squared adj) v l Hp) as [Hne Hham].
    split; [auto|]. apply (hamiltonian_squared adj _ Hnone). assumption.
Qed.

Lemma find_hamiltonian_path_correct_when_returns_witness :
  ragged2 <> [] /\ hamiltonian ragged2 [1;0].
Proof.
  apply (find_hamiltonian_path_correct_when_returns ragged2 2 true [1;0]).
  - vm_compute. reflexivity.
  - reflexivity.
Defined.

